(** * selfie: local-first data layer (storage adapter, migrations, sync)

    A shallow embedding of the TypeScript data layer under [src/lib/db]:
    the schema registry and its builder, [MigrationManager],
    [SQLiteAdapter], the download side of [SupabaseAdapter] and
    [SyncManager].  The embedded SQL engine the adapter talks to is a
    library, not part of the repository; it is modelled here by an
    interpreter for exactly the statement shapes the code issues.

    Conventions.
    - JavaScript objects used as records are finite maps from property
      names to values ([gmap string jsval]).
    - A stored row is a finite map from column names to SQL values.
    - Asynchronous methods become functions in a state-and-exception
      monad over [world]; a thrown value does not roll back the writes
      made before it, exactly as in the source.
    - [Date.now()] and [uuidv4()] are oracles read through counters kept
      in the world, and so are the answers of the remote service; console
      output is not part of the state. *)

From stdpp Require Import gmap strings list fin_maps sorting pretty.
From Stdlib Require Import ZArith Lia.

Open Scope string_scope.
Open Scope list_scope.
Open Scope Z_scope.

(* ===================================================================== *)
(** ** JavaScript values and SQL values                                   *)
(* ===================================================================== *)

Inductive jsval :=
| JUndefined
| JNull
| JBool (b : bool)
| JNum (n : Z)
| JStr (s : string).

Inductive sqlval :=
| SNull
| SInt (n : Z)
| SText (s : string).

#[global] Instance jsval_eq_dec : EqDecision jsval.
Proof. solve_decision. Defined.

#[global] Instance sqlval_eq_dec : EqDecision sqlval.
Proof. solve_decision. Defined.

(** Binding of a statement parameter: booleans are bound as 0/1, [null]
    and [undefined] as NULL. *)
Definition bind (v : jsval) : sqlval :=
  match v with
  | JUndefined | JNull => SNull
  | JBool b => SInt (if b then 1 else 0)
  | JNum n => SInt n
  | JStr s => SText s
  end.

(** A result cell read back into JavaScript. *)
Definition from_sql (v : sqlval) : jsval :=
  match v with
  | SNull => JNull
  | SInt n => JNum n
  | SText s => JStr s
  end.

(** JavaScript truthiness ([if (x)], [x || y]). *)
Definition truthy (v : jsval) : bool :=
  match v with
  | JUndefined | JNull => false
  | JBool b => b
  | JNum n => negb (n =? 0)
  | JStr s => negb (String.eqb s "")
  end.

(** [a > b] on values: both strings compare as strings, otherwise both
    sides are converted to numbers ([null] is 0, booleans are 0/1); a side
    that converts to NaN ([undefined], text) makes the comparison false. *)
Definition to_number (v : jsval) : option Z :=
  match v with
  | JNull => Some 0
  | JBool b => Some (if b then 1 else 0)
  | JNum n => Some n
  | JUndefined | JStr _ => None
  end.

Definition js_gt (a b : jsval) : bool :=
  match a, b with
  | JStr s, JStr t => String.ltb t s
  | _, _ =>
      match to_number a, to_number b with
      | Some x, Some y => y <? x
      | _, _ => false
      end
  end.

(** Property read [o.k]: a missing property reads as [undefined]. *)
Definition prop (o : gmap string jsval) (k : string) : jsval :=
  default JUndefined (o !! k).

(** What a [throw] carries: an [Error] object with its message, or any
    other value. *)
Inductive thrown :=
| ErrorObj (message : string)
| Thrown (v : jsval).

Inductive result (A : Type) :=
| Ok (a : A)
| Throw (e : thrown).
Arguments Ok {A} a.
Arguments Throw {A} e.

(* ===================================================================== *)
(** ** The embedded SQL engine                                            *)
(* ===================================================================== *)

Module Engine.

Record column := Column {
  c_name : string;
  c_type : string;
  c_pk : bool;
  c_autoinc : bool;
  c_notnull : bool;
  c_unique : bool;
  c_default : option sqlval
}.

Record table := Table {
  t_columns : list column;
  t_rows : list (gmap string sqlval)
}.

Record index := Index {
  i_table : string;
  i_columns : list string;
  i_unique : bool
}.

Record database := Database {
  tables : gmap string table;
  indexes : gmap string index
}.

Definition empty_db : database := Database ∅ ∅.

(** [WHERE] conjuncts. *)
Inductive pred :=
| PEq (col : string) (v : sqlval)
| PIn (col : string) (vs : list sqlval).

(** Statements without a result set.  [Malformed] stands for a text the
    parser rejects. *)
Inductive stmt :=
| CreateTable (if_not_exists : bool) (name : string) (cols : list column)
| AddColumn (tbl : string) (col : column)
| CreateIndex (uniq : bool) (name tbl : string) (cols : list string)
| InsertInto (tbl : string) (cols : list string) (vals : list sqlval)
| UpdateSet (tbl : string) (sets : list (string * sqlval)) (wh : list pred)
| Malformed (text : string).

(** Statements with a result set. *)
Inductive query :=
| SelectMaster (ty : string) (name : sqlval)
| TableInfo (tbl : string)
| SelectFrom (tbl : string) (wh : list pred)
    (order : option (string * bool)) (limit offset : option Z)
| SelectCount (tbl : string) (wh : list pred).

Definition cell (r : gmap string sqlval) (c : string) : sqlval :=
  default SNull (r !! c).

(** SQL [=]: never true when a side is NULL. *)
Definition sql_eqb (a b : sqlval) : bool :=
  match a, b with
  | SInt x, SInt y => x =? y
  | SText s, SText t => String.eqb s t
  | _, _ => false
  end.

(** Sort order of values: NULL first, then numbers, then text. *)
Definition sql_leb (a b : sqlval) : bool :=
  match a, b with
  | SNull, _ => true
  | SInt _, SNull => false
  | SInt x, SInt y => x <=? y
  | SInt _, SText _ => true
  | SText _, (SNull | SInt _) => false
  | SText s, SText t => String.leb s t
  end.

Definition holds (r : gmap string sqlval) (p : pred) : bool :=
  match p with
  | PEq c v => sql_eqb (cell r c) v
  | PIn c vs => existsb (sql_eqb (cell r c)) vs
  end.

Definition matches (wh : list pred) (r : gmap string sqlval) : bool :=
  forallb (holds r) wh.

Definition pred_col (p : pred) : string :=
  match p with PEq c _ | PIn c _ => c end.

Definition col_names (t : table) : list string := c_name <$> t_columns t.

Definition has_col (t : table) (c : string) : bool :=
  bool_decide (c ∈ col_names t).

(** Column lists that must stay duplicate-free: primary-key and UNIQUE
    columns, and the unique indexes declared on the table. *)
Definition unique_keys (d : database) (tbl : string) (t : table)
  : list (list string) :=
  ((λ c, [c_name c]) <$> filter (λ c, c_pk c || c_unique c) (t_columns t))
  ++ (i_columns <$>
        filter (λ i, i_unique i && String.eqb (i_table i) tbl)
               (map_to_list (indexes d)).*2).

Definition key_clash (ks : list string) (r1 r2 : gmap string sqlval) : bool :=
  forallb (λ k, sql_eqb (cell r1 k) (cell r2 k)) ks.

(** [r], as one of [final], shares no key with another row of [final]. *)
Definition unique_ok (keys : list (list string))
    (final : list (gmap string sqlval)) (r : gmap string sqlval) : bool :=
  forallb (λ ks, (length (filter (λ r2, key_clash ks r r2) final) <=? 1)%nat)
          keys.

Definition notnull_ok (cols : list column) (r : gmap string sqlval) : bool :=
  forallb (λ c, negb (c_notnull c)
                || negb (bool_decide (cell r (c_name c) = SNull)))
          cols.

(** An [UPDATE] re-checks only what it assigns: the NOT NULL columns among
    the assigned ones, and the keys that contain an assigned column. *)
Definition assigned_cols (assigned : list string) (t : table) : list column :=
  filter (λ c, c_name c ∈ assigned) (t_columns t).

Definition touched_keys (assigned : list string) (keys : list (list string))
  : list (list string) :=
  filter (λ ks, Exists (λ k, k ∈ assigned) ks) keys.

Definition is_rowid (c : column) : bool :=
  c_pk c && String.eqb (c_type c) "INTEGER".

Definition next_rowid (c : string) (rows : list (gmap string sqlval)) : Z :=
  1 + foldr (λ r m, match cell r c with SInt n => Z.max n m | _ => m end)
            0 rows.

(** The row an [INSERT] builds: listed columns take their value, the
    others their declared default (NULL if none); an integer primary key
    left NULL takes the next row id. *)
Definition build_row (t : table) (cols : list string) (vals : list sqlval)
  : gmap string sqlval :=
  let given : gmap string sqlval := list_to_map (zip cols vals) in
  list_to_map
    ((λ c,
       let v := match given !! c_name c with
                | Some v => v
                | None => default SNull (c_default c)
                end in
       (c_name c,
        if is_rowid c && bool_decide (v = SNull)
        then SInt (next_rowid (c_name c) (t_rows t)) else v))
     <$> t_columns t).

(** [SET] assignments are applied left to right, so that of two
    assignments to one column the rightmost decides. *)
Definition apply_sets (sets : list (string * sqlval)) (r : gmap string sqlval)
  : gmap string sqlval :=
  foldl (λ acc kv, <[kv.1 := kv.2]> acc) r sets.

Definition err {A} (msg : string) : result A := Throw (ErrorObj msg).

Definition set_table (d : database) (tbl : string) (t : table) : database :=
  Database (<[tbl := t]> (tables d)) (indexes d).

Definition exec (s : stmt) (d : database) : result database :=
  match s with
  | Malformed _ => err "syntax error"
  | CreateTable ine name cols =>
      match tables d !! name with
      | Some _ => if ine then Ok d else err "table already exists"
      | None =>
          if bool_decide (cols = []) then err "syntax error"
          else if negb (bool_decide (NoDup (c_name <$> cols)))
          then err "duplicate column name"
          else Ok (set_table d name (Table cols []))
      end
  | AddColumn tbl col =>
      match tables d !! tbl with
      | None => err "no such table"
      | Some t =>
          if has_col t (c_name col) then err "duplicate column name"
          else if c_pk col then err "Cannot add a PRIMARY KEY column"
          else if c_unique col then err "Cannot add a UNIQUE column"
          else if c_notnull col
                  && bool_decide (default SNull (c_default col) = SNull)
                  && negb (bool_decide (t_rows t = []))
          then err "Cannot add a NOT NULL column with default value NULL"
          else Ok (set_table d tbl
                     (Table (t_columns t ++ [col])
                        (<[c_name col := default SNull (c_default col)]>
                           <$> t_rows t)))
      end
  | CreateIndex uniq name tbl cols =>
      match indexes d !! name with
      | Some _ => Ok d
      | None =>
          match tables d !! tbl with
          | None => err "no such table"
          | Some t =>
              if bool_decide (cols = []) then err "syntax error"
              else if negb (forallb (has_col t) cols) then err "no such column"
              else if uniq
                      && negb (forallb (unique_ok [cols] (t_rows t)) (t_rows t))
              then err "UNIQUE constraint failed"
              else Ok (Database (tables d)
                         (<[name := Index tbl cols uniq]> (indexes d)))
          end
      end
  | InsertInto tbl cols vals =>
      match tables d !! tbl with
      | None => err "no such table"
      | Some t =>
          if negb (forallb (has_col t) cols) then err "no such column"
          else
            let r := build_row t cols vals in
            if negb (notnull_ok (t_columns t) r) then err "NOT NULL constraint failed"
            else if negb (unique_ok (unique_keys d tbl t) (t_rows t ++ [r]) r)
            then err "UNIQUE constraint failed"
            else Ok (set_table d tbl (Table (t_columns t) (t_rows t ++ [r])))
      end
  | UpdateSet tbl sets wh =>
      match tables d !! tbl with
      | None => err "no such table"
      | Some t =>
          if negb (forallb (has_col t) (sets.*1 ++ (pred_col <$> wh)))
          then err "no such column"
          else
            let marked :=
              (λ r, if matches wh r then (true, apply_sets sets r)
                    else (false, r)) <$> t_rows t in
            let final := marked.*2 in
            let keys := touched_keys sets.*1 (unique_keys d tbl t) in
            if negb (forallb (λ m : bool * gmap string sqlval,
                                negb m.1 || notnull_ok (assigned_cols sets.*1 t) m.2)
                             marked)
            then err "NOT NULL constraint failed"
            else if negb (forallb (λ m : bool * gmap string sqlval,
                                     negb m.1 || unique_ok keys final m.2)
                                  marked)
            then err "UNIQUE constraint failed"
            else Ok (set_table d tbl (Table (t_columns t) final))
      end
  end.

Definition order_rel (c : string) (desc : bool)
  : relation (gmap string sqlval) :=
  λ r1 r2, if desc then sql_leb (cell r2 c) (cell r1 c)
           else sql_leb (cell r1 c) (cell r2 c).

#[global] Instance order_rel_dec c desc r1 r2 : Decision (order_rel c desc r1 r2).
Proof. unfold order_rel. destruct desc; apply _. Defined.

(** [ORDER BY c ASC|DESC]; without it rows come in insertion order. *)
Definition order_by (order : option (string * bool))
    (l : list (gmap string sqlval)) : list (gmap string sqlval) :=
  match order with
  | Some (c, desc) => merge_sort (order_rel c desc) l
  | None => l
  end.

(** [LIMIT n OFFSET m]; a negative limit means no limit. *)
Definition limit_offset {A} (limit offset : option Z) (l : list A) : list A :=
  let l := match offset with
           | Some m => drop (Z.to_nat m) l
           | None => l
           end in
  match limit with
  | Some n => if n <? 0 then l else take (Z.to_nat n) l
  | None => l
  end.

Definition info_row (n : nat) (c : column) : gmap string sqlval :=
  list_to_map
    [("cid", SInt (Z.of_nat n)); ("name", SText (c_name c));
     ("type", SText (c_type c));
     ("notnull", SInt (if c_notnull c then 1 else 0));
     ("dflt_value", default SNull (c_default c));
     ("pk", SInt (if c_pk c then 1 else 0))].

Definition run (q : query) (d : database)
  : result (list (gmap string sqlval)) :=
  match q with
  | SelectMaster ty name =>
      match name with
      | SText n =>
          let present :=
            if String.eqb ty "table" then bool_decide (is_Some (tables d !! n))
            else if String.eqb ty "index"
                 then bool_decide (is_Some (indexes d !! n))
                 else false in
          Ok (if present then [ {[ "name" := SText n ]} ] else [])
      | _ => Ok []
      end
  | TableInfo tbl =>
      match tables d !! tbl with
      | None => Ok []
      | Some t => Ok (imap info_row (t_columns t))
      end
  | SelectFrom tbl wh order limit offset =>
      match tables d !! tbl with
      | None => err "no such table"
      | Some t =>
          if negb (forallb (has_col t)
                     (option_list (fst <$> order) ++ (pred_col <$> wh)))
          then err "no such column"
          else Ok (limit_offset limit offset
                     (order_by order (filter (λ r, matches wh r) (t_rows t))))
      end
  | SelectCount tbl wh =>
      match tables d !! tbl with
      | None => err "no such table"
      | Some t =>
          if negb (forallb (has_col t) (pred_col <$> wh))
          then err "no such column"
          else Ok [ {[ "count" :=
                       SInt (Z.of_nat (length (filter (λ r, matches wh r)
                                                  (t_rows t)))) ]} ]
      end
  end.

End Engine.

Import Engine.

(* ===================================================================== *)
(** ** The world and its monad                                            *)
(* ===================================================================== *)

Inductive platform_t := tauri | capacitor | web.

(** Everything outside the TypeScript objects: the store behind the
    database handle, the platform detected at initialisation, the wall
    clock and the identifier generator, the remote service, and the list
    of statements handed to the engine so far.  The clock is read as
    [now_at] at the current [clock] tick; every call that leaves the
    process (a statement, a query, a remote request) advances the tick. *)
Record world := World {
  store : database;
  platform : platform_t;
  clock : nat;
  now_at : nat → Z;
  uuid_ctr : nat;
  uuid_at : nat → string;
  remote_ok : string → gmap string jsval → bool;
  remote_select : string → Z → option (list (gmap string jsval));
  date_parse : string → Z;
  issued : list stmt
}.

Definition set_store (d : database) (w : world) : world :=
  World d (platform w) (clock w) (now_at w) (uuid_ctr w) (uuid_at w)
        (remote_ok w) (remote_select w) (date_parse w) (issued w).

Definition tick (w : world) : world :=
  World (store w) (platform w) (S (clock w)) (now_at w) (uuid_ctr w)
        (uuid_at w) (remote_ok w) (remote_select w) (date_parse w) (issued w).

Definition log_stmt (s : stmt) (w : world) : world :=
  World (store w) (platform w) (clock w) (now_at w) (uuid_ctr w)
        (uuid_at w) (remote_ok w) (remote_select w) (date_parse w)
        (issued w ++ [s]).

Definition next_uuid (w : world) : world :=
  World (store w) (platform w) (clock w) (now_at w) (S (uuid_ctr w))
        (uuid_at w) (remote_ok w) (remote_select w) (date_parse w) (issued w).

Definition M (A : Type) : Type := world → result A * world.

Definition ret {A} (a : A) : M A := λ w, (Ok a, w).

Definition bindM {A B} (m : M A) (k : A → M B) : M B :=
  λ w, match m w with
       | (Ok a, w') => k a w'
       | (Throw e, w') => (Throw e, w')
       end.

Notation "'let!' x ':=' m 'in' k" := (bindM m (λ x, k))
  (at level 10, x name, m at level 100, k at level 200).
Notation "m '>>' k" := (bindM m (λ _, k))
  (at level 90, right associativity).

(** [try { m } catch (e) { h e }] *)
Definition try_catch {A} (m : M A) (h : thrown → M A) : M A :=
  λ w, match m w with
       | (Ok a, w') => (Ok a, w')
       | (Throw e, w') => h e w'
       end.

(** [for (const x of l) { await f x }] *)
Fixpoint for_each {A} (l : list A) (f : A → M unit) : M unit :=
  match l with
  | [] => ret tt
  | x :: l' => f x >> for_each l' f
  end.

(** The wall clock as it reads in [w]. *)
Definition read_clock (w : world) : Z := now_at w (clock w).

Definition Date_now : M Z := λ w, (Ok (read_clock w), w).

Definition uuidv4 : M string := λ w, (Ok (uuid_at w (uuid_ctr w)), next_uuid w).

(** One statement handed to the engine. *)
Definition engine_exec (s : stmt) : M unit :=
  λ w, let w1 := tick (log_stmt s w) in
       match exec s (store w) with
       | Ok d => (Ok tt, set_store d w1)
       | Throw e => (Throw e, w1)
       end.

(** One query; result rows come back as objects keyed by column name. *)
Definition engine_query (q : query) : M (list (gmap string jsval)) :=
  λ w, match run q (store w) with
       | Ok rows =>
           (Ok ((λ r : gmap string sqlval, from_sql <$> r) <$> rows), tick w)
       | Throw e => (Throw e, tick w)
       end.

(* ===================================================================== *)
(** ** types.ts, schema-builder.ts, schemas.ts                            *)
(* ===================================================================== *)

Record ColumnDefinition := ColDef {
  type : string;
  primaryKey : bool;
  autoIncrement : bool;
  notNull : bool;
  unique : bool;
  defaultValue : option jsval
}.

Record IndexDefinition := IdxDef {
  idx_name : string;
  idx_columns : list string;
  idx_unique : bool
}.

Record TableSchema := Schema {
  name : string;
  columns : list (string * ColumnDefinition);
  indexes_ : option (list IndexDefinition)
}.

(** [obj[k] = v] on an object kept in insertion order. *)
Fixpoint obj_set {A} (k : string) (v : A) (o : list (string * A))
  : list (string * A) :=
  match o with
  | [] => [(k, v)]
  | (k', v') :: o' =>
      if String.eqb k k' then (k, v) :: o' else (k', v') :: obj_set k v o'
  end.

(** The options object of [column]: every field optional. *)
Record ColumnOptions := Opts {
  o_primaryKey : bool;
  o_notNull : bool;
  o_unique : bool;
  o_defaultValue : option jsval
}.

Definition no_opts : ColumnOptions := Opts false false false None.

Module SchemaBuilder.

Definition new (tableName : string) : TableSchema :=
  Schema tableName [] (Some []).

Definition column (name_ : string) (type_ : string) (options : ColumnOptions)
    (s : TableSchema) : TableSchema :=
  Schema (name s)
    (obj_set name_
       (ColDef type_ (o_primaryKey options) false (o_notNull options)
               (o_unique options) (o_defaultValue options))
       (columns s))
    (indexes_ s).

Definition index (columns_ : list string) (name_ : option string)
    (unique_ : bool) (s : TableSchema) : TableSchema :=
  let indexName :=
    match name_ with
    | Some n => if String.eqb n "" then
                  "idx_" +:+ name s +:+ "_" +:+ String.concat "_" columns_
                else n
    | None => "idx_" +:+ name s +:+ "_" +:+ String.concat "_" columns_
    end in
  Schema (name s) (columns s)
         (Some (default [] (indexes_ s)
                  ++ [IdxDef indexName columns_ unique_])).

End SchemaBuilder.

(** [table(tableName, builder)]: the five base fields first, then the
    columns and indexes the builder adds. *)
Definition table_ (tableName : string) (builder : TableSchema → TableSchema)
  : TableSchema :=
  builder
    (SchemaBuilder.column "deleted" "BOOLEAN"
       (Opts false false false (Some (JBool false)))
    (SchemaBuilder.column "synced" "BOOLEAN"
       (Opts false false false (Some (JBool false)))
    (SchemaBuilder.column "updated_at" "TIMESTAMP" (Opts false true false None)
    (SchemaBuilder.column "created_at" "TIMESTAMP" (Opts false true false None)
    (SchemaBuilder.column "id" "TEXT" (Opts true false false None)
    (SchemaBuilder.new tableName)))))).

Definition col (n ty : string) (o : ColumnOptions)
  : TableSchema → TableSchema := SchemaBuilder.column n ty o.

Definition chain (fs : list (TableSchema → TableSchema))
  : TableSchema → TableSchema :=
  λ s, foldl (λ acc f, f acc) s fs.

Definition dflt (n : Z) : ColumnOptions := Opts false false false (Some (JNum n)).
Definition not_null : ColumnOptions := Opts false true false None.

Definition SCHEMA_REGISTRY : list (string * TableSchema) :=
  [ ("pomodoro_sessions",
     table_ "pomodoro_sessions" (chain
       [ col "session_date" "DATE" not_null;
         col "session_number" "INTEGER" not_null;
         col "status" "TEXT" (Opts false true false (Some (JStr "active")));
         col "planned_duration" "INTEGER" not_null;
         col "actual_duration" "INTEGER" (dflt 0);
         col "pause_count" "INTEGER" (dflt 0);
         col "total_pause_duration" "INTEGER" (dflt 0);
         col "started_at" "TIMESTAMP" not_null;
         col "completed_at" "TIMESTAMP" no_opts;
         col "efficiency_score" "REAL" (dflt 0);
         SchemaBuilder.index ["session_date"] None false;
         SchemaBuilder.index ["status"] None false ]));
    ("pomodoro_log",
     table_ "pomodoro_log" (chain
       [ col "log_date" "DATE" (Opts false true true None);
         col "work_sessions" "INTEGER" (dflt 0);
         col "total_work_time" "INTEGER" (dflt 0);
         col "target_sessions" "INTEGER" not_null;
         col "focus_score" "REAL" (dflt 0);
         col "daily_notes" "TEXT" no_opts;
         col "average_efficiency" "REAL" (dflt 0);
         col "total_pause_count" "INTEGER" (dflt 0);
         col "completion_rate" "REAL" (dflt 0);
         SchemaBuilder.index ["log_date"] None true;
         SchemaBuilder.index ["focus_score"] None false ]));
    ("pomodoro_streak",
     table_ "pomodoro_streak" (chain
       [ col "current_streak" "INTEGER" (dflt 0);
         col "best_streak" "INTEGER" (dflt 0);
         col "total_days_logged" "INTEGER" (dflt 0);
         col "last_streak_date" "DATE" no_opts ]));
    ("app_settings",
     table_ "app_settings" (chain
       [ col "work_session_duration" "INTEGER" (dflt 25);
         col "daily_target_sessions" "INTEGER" (dflt 8);
         col "short_break_duration" "INTEGER" (dflt 5);
         col "long_break_duration" "INTEGER" (dflt 15);
         col "sessions_before_long_break" "INTEGER" (dflt 4) ])) ].

(** [Object.keys(SCHEMA_REGISTRY)] *)
Definition TABLE_NAMES : list string := SCHEMA_REGISTRY.*1.

(* ===================================================================== *)
(** ** migration-manager.ts                                               *)
(* ===================================================================== *)

Module MigrationManager.

(** The [n]-th [?] of a statement text; a placeholder left without a
    bound value reads as NULL. *)
Definition param (ps : list sqlval) (n : nat) : sqlval :=
  default SNull (ps !! n).

(** [execute(sql, params)].  A statement text with placeholders is a
    function of the bound values.  The capacitor branch passes the text
    only, so its placeholders stay unbound. *)
Definition execute (sql : list sqlval → stmt) (params : list jsval) : M unit :=
  λ w, match platform w with
       | tauri => engine_exec (sql (bind <$> params)) w
       | capacitor => engine_exec (sql []) w
       | web => engine_exec (sql (bind <$> params)) w
       end.

Definition query (q : Engine.query) : M (list (gmap string jsval)) :=
  engine_query q.

Definition migrations_columns : list column :=
  [ Column "id" "INTEGER" true true false false None;
    Column "version" "INTEGER" false false true false None;
    Column "table_name" "TEXT" false false true false None;
    Column "operation" "TEXT" false false true false None;
    Column "applied_at" "INTEGER" false false true false None ].

Definition initializeMigrationTable : M unit :=
  execute (λ _, CreateTable true "_migrations" migrations_columns) [].

Definition mapType (type_ : string) : string :=
  let typeMap : list (string * string) :=
    [ ("TEXT", "TEXT"); ("INTEGER", "INTEGER"); ("REAL", "REAL");
      ("BOOLEAN", "INTEGER"); ("TIMESTAMP", "INTEGER"); ("DATE", "TEXT");
      ("JSONB", "TEXT") ] in
  match list_find (λ kv, kv.1 = type_) typeMap with
  | Some (_, (_, t)) => t
  | None => "TEXT"
  end.

(** [buildColumnDefinition(name, def)]: the column clause, as the engine
    reads it. *)
Definition buildColumnDefinition (name_ : string) (def : ColumnDefinition)
  : column :=
  Column name_ (mapType (type def)) (primaryKey def) (autoIncrement def)
         (notNull def) (unique def) (bind <$> defaultValue def).

Definition recordMigration (tableName operation : string) : M unit :=
  let! now := Date_now in
  execute
    (λ ps, InsertInto "_migrations"
             ["version"; "table_name"; "operation"; "applied_at"]
             [param ps 0; param ps 1; param ps 2; param ps 3])
    [JNum 1; JStr tableName; JStr operation; JNum now].

Definition checkTableExists (tableName : string) : M bool :=
  let! result := query (SelectMaster "table" (bind (JStr tableName))) in
  ret (0 <? length result)%nat.

Definition checkIndexExists (indexName : string) : M bool :=
  let! result := query (SelectMaster "index" (bind (JStr indexName))) in
  ret (0 <? length result)%nat.

Definition getTableColumns (tableName : string)
  : M (list (gmap string jsval)) :=
  query (TableInfo tableName).

Definition createTable (schema : TableSchema) : M unit :=
  let columns_ :=
    (λ nd : string * ColumnDefinition, buildColumnDefinition nd.1 nd.2)
      <$> columns schema in
  execute (λ _, CreateTable false (name schema) columns_) [].

(** The clause is rebuilt from [buildColumnDefinition] with its first word
    (the name) cut off and the name put in front again. *)
Definition addColumn (tableName columnName : string) (definition : ColumnDefinition)
  : M unit :=
  try_catch
    (execute (λ _, AddColumn tableName
                     (buildColumnDefinition columnName definition)) [])
    (λ _, ret tt).

Definition createIndex (tableName indexName : string) (columns_ : list string)
    (unique_ : bool) : M unit :=
  execute (λ _, CreateIndex unique_ indexName tableName columns_) [].

Definition ensureTableExists (schema : TableSchema) : M unit :=
  let! tableExists := checkTableExists (name schema) in
  if negb tableExists then
    createTable schema >>
    recordMigration (name schema) "CREATE_TABLE"
  else ret tt.

Definition ensureColumnsExist (schema : TableSchema) : M unit :=
  let! existingColumns := getTableColumns (name schema) in
  let existingColumnNames : list jsval :=
    (λ c, prop c "name") <$> existingColumns in
  for_each (columns schema) (λ cd,
    let '(columnName, definition) := cd in
    if negb (bool_decide (JStr columnName ∈ existingColumnNames)) then
      addColumn (name schema) columnName definition >>
      recordMigration (name schema) ("ADD_COLUMN:" +:+ columnName)
    else ret tt).

Definition ensureIndexesExist (schema : TableSchema) : M unit :=
  match indexes_ schema with
  | None => ret tt
  | Some idxs =>
      for_each idxs (λ index,
        let! indexExists := checkIndexExists (idx_name index) in
        if negb indexExists then
          createIndex (name schema) (idx_name index) (idx_columns index)
                      (idx_unique index) >>
          recordMigration (name schema) ("CREATE_INDEX:" +:+ idx_name index)
        else ret tt)
  end.

(** The loop of [applyMigrations] over a registry. *)
Definition migrate (registry : list (string * TableSchema)) : M unit :=
  for_each registry.*2 (λ schema,
    ensureTableExists schema >>
    ensureColumnsExist schema >>
    ensureIndexesExist schema).

Definition applyMigrations : M unit :=
  initializeMigrationTable >>
  migrate SCHEMA_REGISTRY.

End MigrationManager.

(* ===================================================================== *)
(** ** sqlite-adapter.ts                                                  *)
(* ===================================================================== *)

Inductive order_dir := ASC | DESC.

(** [QueryConditions]: the four reserved keys and the rest. *)
Record QueryConditions := Conditions {
  _limit : option Z;
  _offset : option Z;
  _orderBy : option string;
  _orderDir : option order_dir;
  where_ : gmap string jsval
}.

Definition no_conditions : QueryConditions := Conditions None None None None ∅.

Module SQLiteAdapter.

(** [execute(sql, params)]: the three platform branches hand the same
    statement with the same bound values to their driver.  The snapshot
    the browser variant then writes to local storage is a copy of the
    store and is not represented. *)
Definition execute (s : stmt) : M unit := engine_exec s.

Definition query (q : Engine.query) : M (list (gmap string jsval)) :=
  engine_query q.

(** [Object.keys] and [Object.values] list the properties in one order. *)
Definition keys (o : gmap string jsval) : list string := (map_to_list o).*1.
Definition values (o : gmap string jsval) : list jsval := (map_to_list o).*2.

(** The object literal of [insert]: the caller's fields first, then the
    five system fields, which replace any the caller supplied. *)
Definition new_record (id : string) (now : Z) (data : gmap string jsval)
  : gmap string jsval :=
  <["deleted" := JBool false]>
    (<["synced" := JBool false]>
       (<["updated_at" := JNum now]>
          (<["created_at" := JNum now]>
             (<["id" := JStr id]> data)))).

Definition insert (tableName : string) (data : gmap string jsval) : M string :=
  let! id := uuidv4 in
  let! now := Date_now in
  let record := new_record id now data in
  let columns_ := keys record in
  let values_ := values record in
  execute (InsertInto tableName columns_ (bind <$> values_)) >>
  ret id.

(** The statement text is [UPDATE t SET ${updates}, updated_at = ?,
    synced = 0 WHERE id = ?]; with no key in [data] the list after [SET]
    starts with a comma, which no SQL parser accepts. *)
Definition update (tableName : string) (id : jsval) (data : gmap string jsval)
  : M unit :=
  let updates := keys data in
  let! now := Date_now in
  let values_ := (bind <$> values data) ++ [bind (JNum now); bind id] in
  let sql :=
    if bool_decide (updates = []) then
      Malformed ("UPDATE " +:+ tableName
                 +:+ " SET , updated_at = ?, synced = 0 WHERE id = ?")
    else
      UpdateSet tableName
        (zip updates (take (length updates) values_)
         ++ [("updated_at", default SNull (values_ !! length updates));
             ("synced", SInt 0)])
        [PEq "id" (default SNull (values_ !! S (length updates)))] in
  execute sql.

Definition delete_ (tableName : string) (id : string) : M unit :=
  let! now := Date_now in
  execute (UpdateSet tableName
             [("deleted", SInt 1); ("synced", SInt 0);
              ("updated_at", bind (JNum now))]
             [PEq "id" (bind (JStr id))]).

Definition findById (tableName : string) (id : jsval)
  : M (option (gmap string jsval)) :=
  let! rows := query (SelectFrom tableName
                        [PEq "id" (bind id); PEq "deleted" (SInt 0)]
                        None None None) in
  ret (head rows).

Definition findAll (tableName : string) (conditions : QueryConditions)
  : M (list (gmap string jsval)) :=
  let wh :=
    PEq "deleted" (SInt 0)
    :: ((λ kv : string * jsval, PEq kv.1 (bind kv.2))
          <$> map_to_list (where_ conditions)) in
  let order :=
    match _orderBy conditions with
    | Some c =>
        if String.eqb c "" then ("created_at", true)
        else (c, match _orderDir conditions with
                 | Some ASC => false
                 | Some DESC | None => true
                 end)
    | None => ("created_at", true)
    end in
  let limit :=
    match _limit conditions with
    | Some n => if n =? 0 then None else Some n
    | None => None
    end in
  let offset :=
    match limit, _offset conditions with
    | Some _, Some m => if m =? 0 then None else Some m
    | _, _ => None
    end in
  query (SelectFrom tableName wh (Some order) limit offset).

Definition count (tableName : string) (conditions : gmap string jsval) : M jsval :=
  let wh :=
    PEq "deleted" (SInt 0)
    :: ((λ kv : string * jsval, PEq kv.1 (bind kv.2))
          <$> map_to_list conditions) in
  let! result := query (SelectCount tableName wh) in
  let c := match head result with
           | Some r => prop r "count"
           | None => JUndefined
           end in
  ret (if truthy c then c else JNum 0).

Definition findUnsynced (tableName : string) : M (list (gmap string jsval)) :=
  query (SelectFrom tableName [PEq "synced" (SInt 0)]
           (Some ("updated_at", false)) None None).

Definition markAsSynced (tableName : string) (ids : list jsval) : M unit :=
  if bool_decide (ids = []) then ret tt
  else execute (UpdateSet tableName [("synced", SInt 1)]
                  [PIn "id" (bind <$> ids)]).

End SQLiteAdapter.

(* ===================================================================== *)
(** ** supabase-adapter.ts                                                *)
(* ===================================================================== *)

Module SupabaseAdapter.

Definition ends_with (s suffix : string) : bool :=
  String.prefix (String.rev suffix) (String.rev s).

Definition isTimestampField (fieldName : string) : bool :=
  let timestampFields :=
    ["created_at"; "updated_at"; "started_at"; "completed_at";
     "last_streak_date"] in
  bool_decide (fieldName ∈ timestampFields)
  || ends_with fieldName "_at"
  || ends_with fieldName "_time".

(** [prepareFromSupabase(record)]: starts from [{synced: true}] and copies
    every property, turning textual timestamps into numbers. *)
Definition prepareFromSupabase (parse : string → Z) (record : gmap string jsval)
  : gmap string jsval :=
  map_imap (λ key value,
      Some (match value with
            | JStr s => if isTimestampField key then JNum (parse s) else value
            | _ => value
            end)) record
  ∪ {[ "synced" := JBool true ]}.

(** One request of the upload loop.  The request (delete or upsert) and
    its payload are functions of the record, so the remote service's
    verdict is asked for the record. *)
Definition send (tableName : string) (record : gmap string jsval) : M bool :=
  λ w, (Ok (remote_ok w tableName record), tick w).

(** [syncTable(tableName, localRecords)]: a record whose request fails is
    logged and skipped; the identifiers of the others are returned. *)
Fixpoint syncTable (tableName : string) (localRecords : list (gmap string jsval))
  : M (list jsval) :=
  match localRecords with
  | [] => ret []
  | record :: rest =>
      let! ok := send tableName record in
      let! syncedIds := syncTable tableName rest in
      ret (if ok then prop record "id" :: syncedIds else syncedIds)
  end.

Definition downloadTable (tableName : string) (lastSyncTime : Z)
  : M (list (gmap string jsval)) :=
  λ w, match remote_select w tableName lastSyncTime with
       | None => (Ok [], tick w)
       | Some data => (Ok (prepareFromSupabase (date_parse w) <$> data), tick w)
       end.

End SupabaseAdapter.

(* ===================================================================== *)
(** ** sync-manager.ts                                                    *)
(* ===================================================================== *)

Record SyncStatus := Status {
  lastSync : option Z;
  pendingCount : Z;
  isSyncing : bool;
  error : option string
}.

Module SyncManager.

Definition initial : SyncStatus := Status None 0 false None.

(** The object handed to [insert] for a remote record unknown locally:
    [{ id, ...data, created_at, updated_at, synced, deleted }]. *)
Definition insert_argument (record : gmap string jsval) : gmap string jsval :=
  let data :=
    delete "deleted" (delete "synced" (delete "updated_at"
      (delete "created_at" (delete "id" record)))) in
  <["deleted" := prop record "deleted"]>
    (<["synced" := prop record "synced"]>
       (<["updated_at" := prop record "updated_at"]>
          (<["created_at" := prop record "created_at"]>
             (data ∪ {[ "id" := prop record "id" ]})))).

(** The object handed to [update] for a newer remote record:
    [{ ...data, synced }] with [id] and [created_at] taken out. *)
Definition update_argument (record : gmap string jsval) : gmap string jsval :=
  let data := delete "synced" (delete "created_at" (delete "id" record)) in
  <["synced" := prop record "synced"]> data.

(** Body of the download loop of [syncTable]. *)
Definition applyRemote (tableName : string) (record : gmap string jsval)
  : M unit :=
  let! existing := SQLiteAdapter.findById tableName (prop record "id") in
  match existing with
  | None =>
      let! _ := SQLiteAdapter.insert tableName (insert_argument record) in
      ret tt
  | Some existing =>
      if js_gt (prop record "updated_at") (prop existing "updated_at") then
        SQLiteAdapter.update tableName (prop record "id")
          (update_argument record)
      else ret tt
  end.

Definition syncTable (status : SyncStatus) (tableName : string) : M unit :=
  let! unsyncedRecords := SQLiteAdapter.findUnsynced tableName in
  (if (0 <? length unsyncedRecords)%nat then
     let! syncedIds := SupabaseAdapter.syncTable tableName unsyncedRecords in
     SQLiteAdapter.markAsSynced tableName syncedIds
   else ret tt) >>
  let lastSync_ :=
    match lastSync status with
    | Some t => if t =? 0 then 0 else t
    | None => 0
    end in
  let! remoteRecords := SupabaseAdapter.downloadTable tableName lastSync_ in
  if (0 <? length remoteRecords)%nat then
    for_each remoteRecords (applyRemote tableName)
  else ret tt.

(** The text stored on failure. *)
Definition error_text (e : thrown) : string :=
  match e with
  | ErrorObj message => message
  | Thrown _ => "Unknown error"
  end.

(** The status once the guard is passed: [isSyncing = true; error = null]. *)
Definition started (status : SyncStatus) : SyncStatus :=
  Status (lastSync status) (pendingCount status) true None.

(** The [try] block up to the last table. *)
Definition tables_pass (status : SyncStatus) : M unit :=
  for_each TABLE_NAMES (syncTable status).

Definition sync (status : SyncStatus) (w : world) : SyncStatus * world :=
  if isSyncing status then (status, w)
  else
    let status := started status in
    match tables_pass status w with
    | (Ok _, w') =>
        let now := read_clock w' in
        (Status (Some now) 0 false (error status), w')
    | (Throw e, w') =>
        (Status (lastSync status) (pendingCount status) false
                (Some (error_text e)), w')
    end.

End SyncManager.

(* ===================================================================== *)
(** ** Concrete worlds used in the examples                               *)
(* ===================================================================== *)

Definition demo_clock (n : nat) : Z := 1000 + Z.of_nat n.

Definition demo_uuid (n : nat) : string := "uuid-" +:+ pretty n.

(** An empty store on platform [p], a remote service that accepts every
    request and has no rows. *)
Definition demo_parse (s : string) : Z :=
  if String.eqb s "2024-01-01T00:00:00.000Z" then 1704067200000
  else 1704153600000.

Definition blank (p : platform_t) : world :=
  World empty_db p 0 demo_clock 0 demo_uuid
        (λ _ _, true) (λ _ _, Some []) demo_parse [].

(** The world after the first start of the application in a browser. *)
Definition installed : world := (MigrationManager.applyMigrations (blank web)).2.

(** The same world with [rows] in the remote copy of [tableName]. *)
Definition with_remote (tableName : string) (rows : list (gmap string jsval))
    (w : world) : world :=
  World (store w) (platform w) (clock w) (now_at w) (uuid_ctr w) (uuid_at w)
        (remote_ok w)
        (λ t _, if String.eqb t tableName then Some rows else Some [])
        (date_parse w) (issued w).

Definition demo_settings : gmap string jsval :=
  {[ "work_session_duration" := JNum 30 ]}.

(** One settings row, created locally under the identifier [uuid-0]. *)
Definition with_settings : world :=
  (SQLiteAdapter.insert "app_settings" demo_settings installed).2.


(** A settings row as the remote service returns it, modified on
    2024-01-02. *)
Definition remote_row (id : string) : gmap string jsval :=
  list_to_map
    [ ("id", JStr id);
      ("created_at", JStr "2024-01-01T00:00:00.000Z");
      ("updated_at", JStr "2024-01-02T00:00:00.000Z");
      ("deleted", JBool false);
      ("work_session_duration", JNum 50);
      ("daily_target_sessions", JNum 8);
      ("short_break_duration", JNum 5);
      ("long_break_duration", JNum 15);
      ("sessions_before_long_break", JNum 4) ].

(** The registry of an earlier release: the daily log had no
    [target_sessions] column yet. *)
Definition legacy_registry : list (string * TableSchema) :=
  (λ nt : string * TableSchema,
     (nt.1,
      Schema (name nt.2)
        (filter (λ cd : string * ColumnDefinition, cd.1 ≠ "target_sessions")
                (columns nt.2))
        (indexes_ nt.2)))
    <$> SCHEMA_REGISTRY.

(** A store set up by that release, with one day logged. *)
Definition legacy : world :=
  (SQLiteAdapter.insert "pomodoro_log" {[ "log_date" := JStr "2024-01-01" ]}
     ((MigrationManager.initializeMigrationTable
         >> MigrationManager.migrate legacy_registry) (blank web)).2).2.

(** The statements handed to the engine between two worlds. *)
Definition issued_since (before after : world) : list stmt :=
  drop (length (issued before)) (issued after).

(** The table of that name, an empty one when it is missing. *)
Definition table_of (w : world) (tableName : string) : table :=
  default (Table [] []) (tables (store w) !! tableName).

(** The rows of a table, empty when the table is missing. *)
Definition rows_of (w : world) (tableName : string) : list (gmap string sqlval) :=
  match tables (store w) !! tableName with
  | Some t => t_rows t
  | None => []
  end.

(* ===================================================================== *)
(** ** Vocabulary of the statements                                       *)
(* ===================================================================== *)

(** The system fields of [BaseRecord]. *)
Definition base_fields : list string :=
  ["id"; "created_at"; "updated_at"; "synced"; "deleted"].

(** The rows an [UPDATE] leaves behind. *)
Definition updated_rows (sets : list (string * sqlval)) (wh : list pred)
    (rows : list (gmap string sqlval)) : list (gmap string sqlval) :=
  (λ r, if matches wh r then apply_sets sets r else r) <$> rows.

Definition to_js (r : gmap string sqlval) : gmap string jsval := from_sql <$> r.

(** A table of the registry as the adapter needs it: it exists, it has the
    identifier and the three bookkeeping columns, and none of the three
    takes part in a unique key. *)
Definition entity_table (d : database) (tableName : string) (t : table) : Prop :=
  tables d !! tableName = Some t
  ∧ forallb (has_col t) ["id"; "deleted"; "synced"; "updated_at"] = true
  ∧ touched_keys ["deleted"; "synced"; "updated_at"]
                 (unique_keys d tableName t) = [].

(** Every row that carries [id] is flagged deleted. *)
Definition hidden (id : string) (rows : list (gmap string sqlval)) : Prop :=
  Forall (λ r, cell r "id" = SText id → cell r "deleted" = SInt 1) rows.

(** No row carries [id]. *)
Definition unused (id : string) (rows : list (gmap string sqlval)) : Prop :=
  Forall (λ r, cell r "id" ≠ SText id) rows.

(** The fields of an object as [SET] assignments, bound. *)
Definition bound (data : gmap string jsval) : list (string * sqlval) :=
  prod_map id bind <$> map_to_list data.

(** What [update] makes of a row it matches: the supplied fields, then
    the time stamp, then the cleared sync flag. *)
Definition stamp (data : gmap string jsval) (now : Z) (r : gmap string sqlval)
  : gmap string sqlval :=
  <["synced" := SInt 0]> (<["updated_at" := SInt now]> ((bind <$> data) ∪ r)).

(** The assignments of [delete]. *)
Definition delete_sets (now : Z) : list (string * sqlval) :=
  [("deleted", SInt 1); ("synced", SInt 0); ("updated_at", SInt now)].


(* ===================================================================== *)
(** ** Further parts of the adapters and of the sync manager              *)
(* ===================================================================== *)

Definition set_platform (p : platform_t) (w : world) : world :=
  World (store w) p (clock w) (now_at w) (uuid_ctr w) (uuid_at w)
        (remote_ok w) (remote_select w) (date_parse w) (issued w).

(** [throw e] *)
Definition throw {A} (e : thrown) : M A := λ w, (Throw e, w).

(** [SupabaseAdapter.prepareForSupabase(record)]: [synced] is taken out and
    numeric time stamps become text; [toISO] stands for
    [new Date(n).toISOString()]. *)
Definition SupabaseAdapter_prepareForSupabase (toISO : Z → string)
    (record : gmap string jsval) : gmap string jsval :=
  map_imap (λ key value,
      Some (match value with
            | JNum n =>
                if SupabaseAdapter.isTimestampField key then JStr (toISO n)
                else value
            | _ => value
            end)) (delete "synced" record).

(** The loop of [SyncManager.updatePendingCount]. *)
Fixpoint count_pending (tableNames : list string) (totalPending : Z) : M Z :=
  match tableNames with
  | [] => ret totalPending
  | tableName :: rest =>
      let! unsynced := SQLiteAdapter.findUnsynced tableName in
      count_pending rest (totalPending + Z.of_nat (length unsynced))
  end.

(** [SyncManager.updatePendingCount] *)
Definition SyncManager_updatePendingCount (status : SyncStatus) : M SyncStatus :=
  let! totalPending := count_pending TABLE_NAMES 0 in
  ret (Status (lastSync status) totalPending (isSyncing status) (error status)).


(** What [markAsSynced] makes of a row: the flag is set when the row's
    identifier equals one of the given ones. *)
Definition mark_synced (ids : list jsval) (r : gmap string sqlval)
  : gmap string sqlval :=
  if matches [PIn "id" (bind <$> ids)] r then <["synced" := SInt 1]> r else r.

(** What [delete] makes of a row. *)
Definition tombstone (id : string) (now : Z) (r : gmap string sqlval)
  : gmap string sqlval :=
  if sql_eqb (cell r "id") (SText id)
  then <["updated_at" := SInt now]>
         (<["synced" := SInt 0]> (<["deleted" := SInt 1]> r))
  else r.

(** A small store for examples: one table [notes] declared with the
    builder, holding a live row [n1] still to upload and a soft-deleted,
    uploaded row [n2]. *)
Definition notes_table : table :=
  Table
    ((λ nd : string * ColumnDefinition,
        MigrationManager.buildColumnDefinition nd.1 nd.2)
       <$> columns (table_ "notes" (col "title" "TEXT" not_null)))
    [ list_to_map
        [("id", SText "n1"); ("created_at", SInt 10); ("updated_at", SInt 12);
         ("synced", SInt 0); ("deleted", SInt 0); ("title", SText "first")];
      list_to_map
        [("id", SText "n2"); ("created_at", SInt 11); ("updated_at", SInt 11);
         ("synced", SInt 1); ("deleted", SInt 1); ("title", SText "second")] ].

Definition notes_world : world :=
  World (Database {[ "notes" := notes_table ]} ∅) web 20 demo_clock 0 demo_uuid
        (λ _ _, true) (λ _ _, Some []) demo_parse [].

(* ===================================================================== *)
(** ** What a migration may change                                        *)
(* ===================================================================== *)

(** [extends d d']: every table of [d] is a table of [d'] whose column
    list starts with the old one and whose rows start with the old rows,
    each with the values it had in the old columns; every index of [d] is
    an index of [d']. *)
Definition extends (d d' : database) : Prop :=
  (∀ n t, tables d !! n = Some t →
     ∃ t', tables d' !! n = Some t'
           ∧ col_names t `prefix_of` col_names t'
           ∧ ∀ i r, t_rows t !! i = Some r →
               ∃ r', t_rows t' !! i = Some r'
                     ∧ ∀ c, c ∈ col_names t → cell r' c = cell r c)
  ∧ (∀ n i, indexes d !! n = Some i → indexes d' !! n = Some i).

(** The statements that create or append; [UPDATE] is the other one. *)
Definition additive (s : stmt) : bool :=
  match s with
  | UpdateSet _ _ _ => false
  | _ => true
  end.

(** A computation after which the store extends the store before it,
    whether it returns or throws. *)
Definition keeps {A} (m : M A) : Prop :=
  ∀ w, extends (store w) (store (m w).2).

(** What a finished migration of [schema] has put in place. *)
Definition in_place (d : database) (schema : TableSchema) : Prop :=
  is_Some (tables d !! name schema)
  ∧ Forall (λ index, is_Some (indexes d !! idx_name index))
           (default [] (indexes_ schema)).

(** A registry of one table with one index, for examples. *)
Definition notes_registry : list (string * TableSchema) :=
  [ ("notes",
     table_ "notes" (chain
       [ col "title" "TEXT" not_null;
         SchemaBuilder.index ["title"] None false ])) ].

(** The tracking table with the columns [initializeMigrationTable] gives
    it. *)
Definition tracked (d : database) : Prop :=
  ∃ t, tables d !! "_migrations" = Some t
       ∧ t_columns t = MigrationManager.migrations_columns.

(** A world of the capacitor branch whose tracking table is in place. *)
Definition on_capacitor (w : world) : Prop :=
  platform w = capacitor ∧ tracked (store w).

(** The store of the one-table registry, opened on a phone. *)
Definition notes_on_phone : world :=
  set_platform capacitor
    ((MigrationManager.initializeMigrationTable >>
      MigrationManager.migrate notes_registry) (blank web)).2.

(* ===================================================================== *)
(** ** Vocabulary of the sync statements                                  *)
(* ===================================================================== *)

(** [n] calls that left the process and wrote nothing. *)
Definition ticks (n : nat) (w : world) : world := Nat.iter n tick w.


(** A field that survives the way to the remote service and back: a
    number under a time-stamp name must be read back from its text as the
    same number, and no text is stored under such a name. *)
Definition round_trips (toISO : Z → string) (parse : string → Z)
    (key : string) (value : jsval) : bool :=
  negb (SupabaseAdapter.isTimestampField key)
  || match value with
     | JNum n => bool_decide (parse (toISO n) = n)
     | JStr _ => false
     | _ => true
     end.

(** The number of rows of a table still to upload. *)
Definition pending (w : world) (tableName : string) : nat :=
  length (filter (λ r, cell r "synced" = SInt 0) (rows_of w tableName)).


(** Remote versions of the note [n1]: one older than the local row, one
    newer. *)
Definition stale_note : gmap string jsval :=
  list_to_map [("id", JStr "n1"); ("updated_at", JNum 5);
               ("title", JStr "older"); ("synced", JBool true)].

Definition newer_note : gmap string jsval :=
  list_to_map [("id", JStr "n1"); ("updated_at", JNum 50);
               ("title", JStr "newer"); ("synced", JBool true)].

(* ===================================================================== *)
(** ** Schemas made with the builder                                      *)
(* ===================================================================== *)




(* ===================================================================== *)
(** ** pomodoro-service.ts: the settings                                  *)
(* ===================================================================== *)

(** The object literal [getSettings] creates the settings from. *)
Definition default_settings : gmap string jsval :=
  list_to_map
    [ ("work_session_duration", JNum 25);
      ("daily_target_sessions", JNum 8);
      ("short_break_duration", JNum 5);
      ("long_break_duration", JNum 15);
      ("sessions_before_long_break", JNum 4) ].

(** [PomodoroService.getSettings]; the repository [db.app_settings] hands
    each call to the adapter with the table name [app_settings]. *)
Definition PomodoroService_getSettings : M (gmap string jsval) :=
  let! settings := SQLiteAdapter.findAll "app_settings" no_conditions in
  match settings with
  | [] =>
      let! defaultId := SQLiteAdapter.insert "app_settings" default_settings in
      let! newSettings :=
        SQLiteAdapter.findById "app_settings" (JStr defaultId) in
      match newSettings with
      | None => throw (ErrorObj "Failed to create default settings")
      | Some newSettings => ret newSettings
      end
  | first :: _ => ret first
  end.

(** [PomodoroService.updateSettings] *)
Definition PomodoroService_updateSettings (updates : gmap string jsval)
  : M unit :=
  let! settings := PomodoroService_getSettings in
  SQLiteAdapter.update "app_settings" (prop settings "id") updates.

(** The settings row the first call creates on a fresh install. *)
Definition created_settings : gmap string jsval :=
  to_js (default ∅
           (head (rows_of (PomodoroService_getSettings installed).2
                          "app_settings"))).


(* ===================================================================== *)
(** * Properties                                                          *)
(* ===================================================================== *)

(** ** Running a computation *)

Lemma run_ok_eta {A} (m : M A) (w : world) (a : A) :
  (m w).1 = Ok a → m w = (Ok a, (m w).2).
Proof. destruct (m w) as [r w']. cbn. by intros ->. Qed.

(** ** The sync cycle and its status *)

(** C9.  A call to [sync] made while a cycle is in progress returns at the
    guard: the status and the world (store, clock, statements issued) are
    exactly what they were. *)
Theorem sync_while_syncing_is_noop (s : SyncStatus) (w : world) :
  isSyncing s = true →
  SyncManager.sync s w = (s, w).
Proof.
  intros Hbusy. unfold SyncManager.sync. by rewrite Hbusy.
Qed.

(** ... for instance on an installed store with a cycle marked as running. *)
Lemma sync_while_syncing_is_noop_witness :
  SyncManager.sync (Status (Some 5) 3 true None) installed
  = (Status (Some 5) 3 true None, installed).
Proof.
  apply (sync_while_syncing_is_noop (Status (Some 5) 3 true None) installed).
  reflexivity.
Defined.

(** C8.  When the pass over the tables throws, the text of the thrown
    error is stored in the status ([message] of an [Error] object), the
    last-sync time and the pending count keep their previous values, and
    the in-progress flag is cleared; the writes made before the throw stay. *)
Theorem sync_failure_recorded (s : SyncStatus) (w w' : world) (e : thrown) :
  isSyncing s = false →
  SyncManager.tables_pass (SyncManager.started s) w = (Throw e, w') →
  SyncManager.sync s w
  = (Status (lastSync s) (pendingCount s) false
            (Some (SyncManager.error_text e)), w')
  ∧ (∀ message, e = ErrorObj message →
       error (SyncManager.sync s w).1 = Some message).
Proof.
  intros Hidle Hpass. unfold SyncManager.sync. rewrite Hidle, Hpass. cbn.
  split; [done|]. by intros message ->.
Qed.

(** C7 as amended.  When the pass over the tables completes, the last-sync
    time becomes the clock reading taken after the last table, the pending
    count becomes zero, and the cycle ends idle without an error. *)
Theorem sync_success_recorded (s : SyncStatus) (w w' : world) :
  isSyncing s = false →
  SyncManager.tables_pass (SyncManager.started s) w = (Ok tt, w') →
  SyncManager.sync s w = (Status (Some (read_clock w')) 0 false None, w').
Proof.
  intros Hidle Hpass. unfold SyncManager.sync. by rewrite Hidle, Hpass.
Qed.

(** ... for instance on an empty store, where the first table is missing. *)
Lemma sync_failure_recorded_witness :
  SyncManager.sync SyncManager.initial (blank web)
  = (Status None 0 false (Some "no such table"), tick (blank web))
  ∧ (∀ message, ErrorObj "no such table" = ErrorObj message →
       error (SyncManager.sync SyncManager.initial (blank web)).1 = Some message).
Proof.
  apply (sync_failure_recorded SyncManager.initial (blank web)
           (tick (blank web)) (ErrorObj "no such table"));
    reflexivity.
Defined.

(** ... for instance on a fresh install with nothing to exchange. *)
Lemma sync_success_recorded_witness :
  ∃ w', SyncManager.sync SyncManager.initial installed
        = (Status (Some (read_clock w')) 0 false None, w')
        ∧ read_clock w' = 1037.
Proof.
  exists (SyncManager.tables_pass (SyncManager.started SyncManager.initial)
            installed).2.
  split; [|by vm_compute].
  apply (sync_success_recorded SyncManager.initial installed); [reflexivity|].
  apply run_ok_eta. by vm_compute.
Defined.

(** C7 as stated fails.  On a freshly installed store the cycle starts
    when the clock reads 1029 and completes all four tables; the time
    recorded is 1037, the reading after the last table. *)
Lemma sync_records_completion_time :
  ∃ w', SyncManager.tables_pass (SyncManager.started SyncManager.initial)
          installed = (Ok tt, w')
        ∧ read_clock installed = 1029
        ∧ lastSync (SyncManager.sync SyncManager.initial installed).1 = Some 1037.
Proof.
  eexists. split; [apply run_ok_eta; by vm_compute|]. split; by vm_compute.
Qed.

(** ** The engine's [UPDATE] *)

Lemma marked_final sets wh (rows : list (gmap string sqlval)) :
  ((λ r, if matches wh r then (true, apply_sets sets r) else (false, r))
     <$> rows).*2
  = updated_rows sets wh rows.
Proof.
  unfold updated_rows. rewrite <- list_fmap_compose.
  apply list_fmap_ext. intros _ r _. cbn. by destruct (matches wh r).
Qed.

(** An accepted [UPDATE] replaces the rows of its table by
    [updated_rows] and touches nothing else. *)
Lemma exec_update_inv d d' tbl sets wh :
  exec (UpdateSet tbl sets wh) d = Ok d' →
  ∃ t, tables d !! tbl = Some t
       ∧ d' = set_table d tbl
                (Table (t_columns t) (updated_rows sets wh (t_rows t))).
Proof.
  cbn. destruct (tables d !! tbl) as [t|] eqn:Ht; [|done].
  repeat (case_match; try done).
  intros [= <-]. exists t. by rewrite marked_final.
Qed.

Lemma apply_sets_snoc sets k v (r : gmap string sqlval) :
  apply_sets (sets ++ [(k, v)]) r = <[k := v]> (apply_sets sets r).
Proof. unfold apply_sets. by rewrite foldl_app. Qed.

Lemma apply_sets_lookup_ne sets k (r : gmap string sqlval) :
  k ∉ sets.*1 → apply_sets sets r !! k = r !! k.
Proof.
  revert r. induction sets as [|[k' v'] sets IH]; intros r Hk; [done|].
  change (apply_sets ((k', v') :: sets) r)
    with (apply_sets sets (<[k' := v']> r)).
  rewrite fmap_cons in Hk. cbn in Hk.
  apply not_elem_of_cons in Hk as [Hne Hk].
  rewrite IH by done. by apply lookup_insert_ne.
Qed.

(** Every assigned column ends up with one of the assigned values. *)
Lemma apply_sets_lookup_in sets k (r : gmap string sqlval) :
  k ∈ sets.*1 → ∃ v, (k, v) ∈ sets ∧ apply_sets sets r !! k = Some v.
Proof.
  induction sets as [|[k' v'] sets IH] using rev_ind.
  { intros Hk. by apply not_elem_of_nil in Hk. }
  rewrite fmap_app, apply_sets_snoc. cbn. intros Hk.
  destruct (decide (k = k')) as [->|Hne].
  - exists v'. split; [|apply lookup_insert_eq].
    apply elem_of_app. right. apply list_elem_of_here.
  - apply elem_of_app in Hk as [Hk|Hk].
    + destruct (IH Hk) as (v & Hin & Hv).
      exists v. split; [apply elem_of_app; by left|].
      by rewrite lookup_insert_ne.
    + apply list_elem_of_singleton in Hk. congruence.
Qed.

(** An [UPDATE] that names an existing table and existing columns, assigns
    no NULL and assigns no column of a unique key is accepted. *)
Lemma exec_update_total d tbl t sets wh :
  tables d !! tbl = Some t →
  forallb (has_col t) (sets.*1 ++ (pred_col <$> wh)) = true →
  Forall (λ kv, kv.2 ≠ SNull) sets →
  touched_keys sets.*1 (unique_keys d tbl t) = [] →
  exec (UpdateSet tbl sets wh) d
  = Ok (set_table d tbl
          (Table (t_columns t) (updated_rows sets wh (t_rows t)))).
Proof.
  intros Ht Hcols Hnn Hkeys. unfold exec. rewrite Ht, Hcols. cbv zeta.
  rewrite Hkeys, marked_final.
  set (marked := (λ r, if matches wh r then (true, apply_sets sets r)
                       else (false, r)) <$> t_rows t).
  assert (forallb (λ m : bool * gmap string sqlval,
                     negb m.1 || notnull_ok (assigned_cols sets.*1 t) m.2)
            marked = true) as ->.
  { apply forallb_forall. intros [b r'] Hin.
    apply in_map_iff in Hin as (r & Heq & _).
    destruct (matches wh r); simplify_eq; cbn; [|done].
    apply forallb_forall. intros c Hc.
    apply list_elem_of_In, list_elem_of_filter in Hc as [Hc _].
    destruct (apply_sets_lookup_in sets (c_name c) r Hc) as (v & Hv & Hlk).
    unfold cell. rewrite Hlk. cbn.
    rewrite Forall_forall in Hnn. specialize (Hnn _ Hv). cbn in Hnn.
    rewrite bool_decide_eq_false_2 by done. by rewrite orb_true_r. }
  assert (forallb (λ m : bool * gmap string sqlval,
                     negb m.1
                     || unique_ok [] (updated_rows sets wh (t_rows t)) m.2)
            marked = true) as ->.
  { apply forallb_forall. intros [b r'] _. cbn. by rewrite orb_true_r. }
  done.
Qed.

(** ** Results read back into JavaScript *)

Lemma prop_to_js_str (r : gmap string sqlval) k s :
  prop (to_js r) k = JStr s ↔ cell r k = SText s.
Proof.
  unfold prop, to_js, cell. rewrite lookup_fmap.
  destruct (r !! k) as [[]|]; cbn; split; intros; simplify_eq; done.
Qed.

Lemma engine_query_ok q w rows :
  run q (store w) = Ok rows →
  engine_query q w = (Ok (to_js <$> rows), tick w).
Proof. unfold engine_query. by intros ->. Qed.

Lemma engine_exec_ok s w d :
  exec s (store w) = Ok d →
  engine_exec s w = (Ok tt, set_store d (tick (log_stmt s w))).
Proof. unfold engine_exec. by intros ->. Qed.

Lemma engine_exec_inv s w w' :
  engine_exec s w = (Ok tt, w') →
  ∃ d, exec s (store w) = Ok d ∧ w' = set_store d (tick (log_stmt s w)).
Proof.
  unfold engine_exec. destruct (exec s (store w)) as [d|e]; [|done].
  intros [= <-]. eauto.
Qed.

Lemma sql_eqb_text_l s v : sql_eqb (SText s) v = true ↔ v = SText s.
Proof.
  destruct v as [|n|t]; cbn; try (split; done).
  rewrite String.eqb_eq. split; congruence.
Qed.

Lemma sql_eqb_text_r v s : sql_eqb v (SText s) = true ↔ v = SText s.
Proof.
  destruct v as [|n|t]; cbn; try (split; done).
  rewrite String.eqb_eq. split; congruence.
Qed.

Lemma sql_eqb_int_r v n : sql_eqb v (SInt n) = true ↔ v = SInt n.
Proof.
  destruct v as [|m|t]; cbn; try (split; done).
  rewrite Z.eqb_eq. split; congruence.
Qed.

Lemma bind_text v s : bind v = SText s ↔ v = JStr s.
Proof. destruct v as [| |[]| |]; cbn; split; congruence. Qed.

(** ** Selections *)

Lemma elem_of_limit_offset {A} limit offset (l : list A) x :
  x ∈ limit_offset limit offset l → x ∈ l.
Proof.
  unfold limit_offset. intros Hx.
  assert (x ∈ match offset with Some m => drop (Z.to_nat m) l | None => l end)
    as Hd.
  { destruct limit as [n|]; [|done].
    destruct (n <? 0); [done|].
    eapply elem_of_sublist; [done|apply sublist_take]. }
  destruct offset; [|done].
  eapply elem_of_sublist; [done|apply sublist_drop].
Qed.

Lemma elem_of_order_by order (l : list (gmap string sqlval)) r :
  r ∈ order_by order l ↔ r ∈ l.
Proof.
  destruct order as [[c desc]|]; [|done]. cbn.
  by rewrite merge_sort_Permutation.
Qed.

(** Whatever a [SELECT] returns is a stored row that satisfies every
    conjunct of its [WHERE]. *)
Lemma run_select_sound d tbl wh order limit offset rows r :
  run (SelectFrom tbl wh order limit offset) d = Ok rows →
  r ∈ rows →
  ∃ t, tables d !! tbl = Some t ∧ r ∈ t_rows t ∧ matches wh r = true.
Proof.
  cbn. destruct (tables d !! tbl) as [t|]; [|done].
  case_match; [done|]. intros [= <-] Hr.
  apply elem_of_limit_offset, elem_of_order_by, list_elem_of_filter in Hr
    as [Hm Hr].
  exists t. split; [done|]. split; [done|]. by apply Is_true_true.
Qed.

(** Without [LIMIT], every stored row that satisfies the [WHERE] is
    returned. *)
Lemma run_select_complete d tbl t wh order r :
  tables d !! tbl = Some t →
  forallb (has_col t) (option_list (fst <$> order) ++ (pred_col <$> wh)) = true →
  r ∈ t_rows t → matches wh r = true →
  ∃ rows, run (SelectFrom tbl wh order None None) d = Ok rows ∧ r ∈ rows.
Proof.
  intros Ht Hcols Hr Hm. cbn. rewrite Ht, Hcols. cbn.
  eexists. split; [done|].
  apply elem_of_order_by, list_elem_of_filter. split; [|done].
  by apply Is_true_true.
Qed.

(** ** Soft delete *)

Lemma touched_keys_nil_mono assigned assigned' keys :
  assigned ⊆ assigned' →
  touched_keys assigned' keys = [] → touched_keys assigned keys = [].
Proof.
  intros Hsub Hnil. apply elem_of_nil_inv. intros ks Hks.
  apply list_elem_of_filter in Hks as [Hex Hks].
  assert (ks ∈ touched_keys assigned' keys) as Hin.
  { apply list_elem_of_filter. split; [|done].
    eapply Exists_impl; [done|]. intros k Hk. by apply Hsub. }
  rewrite Hnil in Hin. by apply not_elem_of_nil in Hin.
Qed.

Lemma entity_table_set_rows d tableName t rows :
  entity_table d tableName t →
  entity_table (set_table d tableName (Table (t_columns t) rows)) tableName
               (Table (t_columns t) rows).
Proof.
  intros (Ht & Hcols & Hkeys). split; [|split].
  - cbn. apply lookup_insert_eq.
  - done.
  - done.
Qed.

Lemma store_set_store d w : store (set_store d w) = d.
Proof. done. Qed.

Lemma findById_hidden w tableName id t :
  entity_table (store w) tableName t →
  hidden id (t_rows t) →
  SQLiteAdapter.findById tableName (JStr id) w = (Ok None, tick w).
Proof.
  intros (Ht & Hcols & _) Hhid. unfold hidden in Hhid.
  rewrite Forall_forall in Hhid.
  assert (run (SelectFrom tableName
                 [PEq "id" (SText id); PEq "deleted" (SInt 0)] None None None)
              (store w) = Ok []) as Hrun.
  { cbn -[has_col] in *. rewrite Ht.
    apply andb_prop in Hcols as [-> Hcols].
    apply andb_prop in Hcols as [-> _]. cbn.
    f_equal. apply elem_of_nil_inv. intros r Hr.
    apply list_elem_of_filter in Hr as [Hm Hr]. apply Is_true_true in Hm.
    cbn in Hm. apply andb_prop in Hm as [Hid Hdel].
    apply andb_prop in Hdel as [Hdel _].
    apply sql_eqb_text_r in Hid. apply sql_eqb_int_r in Hdel.
    rewrite (Hhid r Hr Hid) in Hdel. done. }
  unfold SQLiteAdapter.findById, bindM, SQLiteAdapter.query. cbn [bind].
  by rewrite (engine_query_ok _ _ _ Hrun).
Qed.

Lemma findAll_hidden w tableName cs id t found o :
  tables (store w) !! tableName = Some t →
  hidden id (t_rows t) →
  (SQLiteAdapter.findAll tableName cs w).1 = Ok found →
  o ∈ found → prop o "id" ≠ JStr id.
Proof.
  intros Ht Hhid Hfound Ho Hid. unfold hidden in Hhid.
  rewrite Forall_forall in Hhid.
  unfold SQLiteAdapter.findAll, SQLiteAdapter.query, engine_query in Hfound.
  match type of Hfound with
  | context [run ?q (store w)] => destruct (run q (store w)) as [rows|e] eqn:Hrun
  end; [|done].
  cbn in Hfound. simplify_eq.
  apply list_elem_of_fmap in Ho as (r & -> & Hr).
  eapply run_select_sound in Hrun as (t' & Ht' & Hrt & Hm); [|done].
  simplify_eq. cbn in Hm. apply andb_prop in Hm as [Hdel _].
  apply sql_eqb_int_r in Hdel. apply prop_to_js_str in Hid.
  rewrite (Hhid r Hrt Hid) in Hdel. done.
Qed.

Lemma findUnsynced_sees w tableName t r id :
  entity_table (store w) tableName t →
  r ∈ t_rows t → cell r "id" = SText id → cell r "synced" = SInt 0 →
  ∃ found o, (SQLiteAdapter.findUnsynced tableName w).1 = Ok found
             ∧ o ∈ found ∧ prop o "id" = JStr id.
Proof.
  intros (Ht & Hcols & _) Hr Hid Hsync.
  destruct (run_select_complete (store w) tableName t
              [PEq "synced" (SInt 0)] (Some ("updated_at", false)) r)
    as (rows & Hrun & Hin); [done| | done | |].
  { cbn -[has_col] in *.
    apply andb_prop in Hcols as [_ Hcols].
    apply andb_prop in Hcols as [_ Hcols].
    apply andb_prop in Hcols as [-> Hcols].
    by apply andb_prop in Hcols as [-> _]. }
  { cbn. rewrite Hsync. done. }
  exists (to_js <$> rows), (to_js r).
  unfold SQLiteAdapter.findUnsynced, SQLiteAdapter.query.
  erewrite engine_query_ok by done. cbn.
  split; [done|]. split; [by apply list_elem_of_fmap_2|].
  by apply prop_to_js_str.
Qed.

Lemma findUnsynced_clean w tableName t id found o :
  tables (store w) !! tableName = Some t →
  (∀ r, r ∈ t_rows t → cell r "id" = SText id → cell r "synced" = SInt 1) →
  (SQLiteAdapter.findUnsynced tableName w).1 = Ok found →
  o ∈ found → prop o "id" ≠ JStr id.
Proof.
  intros Ht Hclean Hfound Ho Hid.
  unfold SQLiteAdapter.findUnsynced, SQLiteAdapter.query, engine_query in Hfound.
  match type of Hfound with
  | context [run ?q (store w)] => destruct (run q (store w)) as [rows|e] eqn:Hrun
  end; [|done].
  cbn in Hfound. simplify_eq.
  apply list_elem_of_fmap in Ho as (r & -> & Hr).
  eapply run_select_sound in Hrun as (t' & Ht' & Hrt & Hm); [|done].
  simplify_eq. cbn in Hm. apply andb_prop in Hm as [Hs _].
  apply sql_eqb_int_r in Hs. apply prop_to_js_str in Hid.
  rewrite (Hclean r Hrt Hid) in Hs. done.
Qed.

Lemma elem_of_updated_rows sets wh rows r' :
  r' ∈ updated_rows sets wh rows
  ↔ ∃ r, r ∈ rows ∧ r' = if matches wh r then apply_sets sets r else r.
Proof.
  unfold updated_rows. rewrite list_elem_of_fmap. split.
  - intros (r & -> & Hr). by exists r.
  - intros (r & Hr & ->). by exists r.
Qed.

Lemma cell_apply_sets_ne sets k r :
  k ∉ sets.*1 → cell (apply_sets sets r) k = cell r k.
Proof. intros Hk. unfold cell. by rewrite apply_sets_lookup_ne. Qed.

Lemma matches_id_text id r :
  matches [PEq "id" (SText id)] r = true ↔ cell r "id" = SText id.
Proof.
  cbn. rewrite andb_true_r. apply sql_eqb_text_r.
Qed.

Lemma matches_id_in ids id r :
  cell r "id" = SText id →
  matches [PIn "id" (bind <$> ids)] r = bool_decide (JStr id ∈ ids).
Proof.
  intros Hid. cbn. rewrite andb_true_r, Hid.
  case_bool_decide as Hin.
  - apply existsb_exists. exists (SText id). split; [|by apply sql_eqb_text_l].
    apply list_elem_of_In, list_elem_of_fmap. by exists (JStr id).
  - apply not_true_is_false. intros (v & Hv & Heq)%existsb_exists.
    apply sql_eqb_text_l in Heq as ->.
    apply list_elem_of_In, list_elem_of_fmap in Hv as (jv & Hjv & Hin').
    symmetry in Hjv. apply bind_text in Hjv as ->. done.
Qed.

Lemma delete_run w tableName id t :
  entity_table (store w) tableName t →
  ∃ w1, SQLiteAdapter.delete_ tableName id w = (Ok tt, w1)
        ∧ store w1
          = set_table (store w) tableName
              (Table (t_columns t)
                 (updated_rows (delete_sets (read_clock w))
                    [PEq "id" (SText id)] (t_rows t))).
Proof.
  intros (Ht & Hcols & Hkeys).
  eexists. unfold SQLiteAdapter.delete_, bindM, Date_now, SQLiteAdapter.execute.
  cbn [bind].
  erewrite engine_exec_ok; [split; reflexivity|].
  apply exec_update_total; [done| |by repeat constructor|done].
  cbn -[has_col] in *.
  apply andb_prop in Hcols as [-> Hcols].
  apply andb_prop in Hcols as [-> Hcols].
  apply andb_prop in Hcols as [-> Hcols].
  by apply andb_prop in Hcols as [-> _].
Qed.

Lemma markAsSynced_run w tableName ids t :
  entity_table (store w) tableName t →
  ∃ w1, SQLiteAdapter.markAsSynced tableName ids w = (Ok tt, w1)
        ∧ ∃ rows, entity_table (store w1) tableName (Table (t_columns t) rows)
        ∧ (∀ r', r' ∈ rows →
             ∃ r, r ∈ t_rows t
                  ∧ r' = if matches [PIn "id" (bind <$> ids)] r
                         then <["synced" := SInt 1]> r else r)
        ∧ (∀ r, r ∈ t_rows t →
             (if matches [PIn "id" (bind <$> ids)] r
              then <["synced" := SInt 1]> r else r) ∈ rows).
Proof.
  intros Hent. pose proof Hent as (Ht & Hcols & Hkeys).
  unfold SQLiteAdapter.markAsSynced. case_bool_decide as Hnil.
  - subst ids. exists w. split; [done|]. exists (t_rows t).
    split; [by destruct t|]. split.
    + intros r' Hr'. by exists r'.
    + by intros r Hr.
  - assert (exec (UpdateSet tableName [("synced", SInt 1)]
                    [PIn "id" (bind <$> ids)]) (store w)
            = Ok (set_table (store w) tableName
                    (Table (t_columns t)
                       (updated_rows [("synced", SInt 1)]
                          [PIn "id" (bind <$> ids)] (t_rows t))))) as Hex.
    { apply exec_update_total; [done| |by repeat constructor|].
      - cbn -[has_col] in *.
        apply andb_prop in Hcols as [Hid Hcols].
        apply andb_prop in Hcols as [_ Hcols].
        apply andb_prop in Hcols as [-> _]. by rewrite Hid.
      - eapply touched_keys_nil_mono; [|exact Hkeys].
        intros k Hk. cbn in Hk.
        apply list_elem_of_singleton in Hk as ->.
        apply list_elem_of_further, list_elem_of_here. }
    eexists. unfold SQLiteAdapter.execute.
    rewrite (engine_exec_ok _ _ _ Hex). split; [reflexivity|].
    eexists. split; [by apply entity_table_set_rows|].
    split.
    + intros r' Hr'. apply elem_of_updated_rows in Hr' as (r & Hr & ->).
      by exists r.
    + intros r Hr. apply elem_of_updated_rows. by exists r.
Qed.

Lemma findUnsynced_total w tableName t :
  entity_table (store w) tableName t →
  ∃ found, (SQLiteAdapter.findUnsynced tableName w).1 = Ok found.
Proof.
  intros (Ht & Hcols & _).
  unfold SQLiteAdapter.findUnsynced, SQLiteAdapter.query, engine_query.
  cbn -[has_col] in *. rewrite Ht.
  apply andb_prop in Hcols as [_ Hcols].
  apply andb_prop in Hcols as [_ Hcols].
  apply andb_prop in Hcols as [-> Hcols].
  apply andb_prop in Hcols as [-> _]. cbn. eauto.
Qed.

Lemma rows_of_entity w tableName t :
  entity_table (store w) tableName t → rows_of w tableName = t_rows t.
Proof. intros (Ht & _). unfold rows_of. by rewrite Ht. Qed.

Lemma cell_insert_ne (r : gmap string sqlval) k k' v :
  k ≠ k' → cell (<[k := v]> r) k' = cell r k'.
Proof. intros Hne. unfold cell. by rewrite lookup_insert_ne. Qed.

Lemma cell_insert_eq (r : gmap string sqlval) k v :
  cell (<[k := v]> r) k = v.
Proof. unfold cell. by rewrite lookup_insert_eq. Qed.

(** C4.  Let a row with identifier [id] exist in a table of the registry.
    Then [delete] succeeds, and afterwards every row carrying [id] has
    [deleted = 1] and [synced = 0]; [findById] answers null and no
    [findAll], whatever its conditions, returns a record with that
    identifier; [findUnsynced] does return one.  After a [markAsSynced]
    that does not name [id] all of this still holds; after one that names
    [id] the record is gone from [findUnsynced] too, and stays hidden from
    [findById] and [findAll]. *)
Theorem soft_delete_visibility w tableName id t r0 :
  entity_table (store w) tableName t →
  r0 ∈ t_rows t → cell r0 "id" = SText id →
  ∃ w1,
    SQLiteAdapter.delete_ tableName id w = (Ok tt, w1)
    ∧ (∃ r, r ∈ rows_of w1 tableName ∧ cell r "id" = SText id)
    ∧ (∀ r, r ∈ rows_of w1 tableName → cell r "id" = SText id →
         cell r "deleted" = SInt 1 ∧ cell r "synced" = SInt 0)
    ∧ (SQLiteAdapter.findById tableName (JStr id) w1).1 = Ok None
    ∧ (∀ cs found o,
         (SQLiteAdapter.findAll tableName cs w1).1 = Ok found →
         o ∈ found → prop o "id" ≠ JStr id)
    ∧ (∃ found o, (SQLiteAdapter.findUnsynced tableName w1).1 = Ok found
                  ∧ o ∈ found ∧ prop o "id" = JStr id)
    ∧ (∀ ids, ∃ w2,
         SQLiteAdapter.markAsSynced tableName ids w1 = (Ok tt, w2)
         ∧ (SQLiteAdapter.findById tableName (JStr id) w2).1 = Ok None
         ∧ (∀ cs found o,
              (SQLiteAdapter.findAll tableName cs w2).1 = Ok found →
              o ∈ found → prop o "id" ≠ JStr id)
         ∧ (JStr id ∉ ids →
              ∃ found o, (SQLiteAdapter.findUnsynced tableName w2).1 = Ok found
                         ∧ o ∈ found ∧ prop o "id" = JStr id)
         ∧ (JStr id ∈ ids →
              ∃ found, (SQLiteAdapter.findUnsynced tableName w2).1 = Ok found
                       ∧ ∀ o, o ∈ found → prop o "id" ≠ JStr id)).
Proof.
  intros Hent Hr0 Hid0.
  destruct (delete_run w tableName id t Hent) as (w1 & Hdel & Hstore).
  set (rows1 := updated_rows (delete_sets (read_clock w))
                  [PEq "id" (SText id)] (t_rows t)) in Hstore.
  assert (entity_table (store w1) tableName (Table (t_columns t) rows1)) as Hent1.
  { rewrite Hstore. by apply entity_table_set_rows. }
  assert (∀ r, r ∈ rows1 → cell r "id" = SText id →
               cell r "deleted" = SInt 1 ∧ cell r "synced" = SInt 0) as Hflag.
  { intros r' (r & Hr & ->)%elem_of_updated_rows Hid'.
    destruct (matches [PEq "id" (SText id)] r) eqn:Hm.
    - unfold delete_sets, apply_sets. cbn [foldl fst snd]. split.
      + rewrite !cell_insert_ne by done. apply cell_insert_eq.
      + rewrite cell_insert_ne by done. apply cell_insert_eq.
    - apply matches_id_text in Hid'. congruence. }
  assert (∃ r, r ∈ rows1 ∧ cell r "id" = SText id) as (r1 & Hr1 & Hid1).
  { exists (apply_sets (delete_sets (read_clock w)) r0). split.
    - apply elem_of_updated_rows. exists r0. split; [done|].
      by rewrite (proj2 (matches_id_text id r0) Hid0).
    - rewrite <- Hid0. unfold delete_sets, apply_sets. cbn [foldl fst snd].
      by rewrite !cell_insert_ne. }
  assert (hidden id rows1) as Hhid.
  { apply Forall_forall. intros r Hr Hid. by apply Hflag. }
  exists w1. rewrite (rows_of_entity _ _ _ Hent1). cbn [t_rows].
  split; [done|]. split; [by exists r1|]. split; [done|].
  split; [by erewrite findById_hidden|].
  split.
  { intros cs found o. destruct Hent1 as (Ht1 & _).
    by eapply findAll_hidden. }
  split.
  { eapply findUnsynced_sees; [done|exact Hr1|done|]. by apply Hflag. }
  intros ids.
  destruct (markAsSynced_run w1 tableName ids _ Hent1)
    as (w2 & Hmark & rows2 & Hent2 & Hfrom & Hinto).
  cbn [t_rows t_columns] in *.
  assert (hidden id rows2) as Hhid2.
  { unfold hidden in Hhid. rewrite Forall_forall in Hhid.
    apply Forall_forall.
    intros r' Hr' Hid'. destruct (Hfrom r' Hr') as (r & Hr & ->).
    destruct (matches [PIn "id" (bind <$> ids)] r).
    - rewrite cell_insert_ne in Hid' by done. rewrite cell_insert_ne by done.
      by apply Hhid.
    - by apply Hhid. }
  exists w2. split; [done|].
  split; [by erewrite findById_hidden|].
  split.
  { intros cs found o. destruct Hent2 as (Ht2 & _).
    by eapply findAll_hidden. }
  split.
  - intros Hnotin.
    eapply findUnsynced_sees; [done| |exact Hid1|by apply Hflag].
    cbn [t_rows]. specialize (Hinto r1 Hr1).
    rewrite (matches_id_in ids id r1 Hid1) in Hinto.
    by rewrite bool_decide_eq_false_2 in Hinto.
  - intros Hin.
    destruct (findUnsynced_total w2 tableName _ Hent2) as (found & Hfound).
    exists found. split; [done|]. intros o Ho.
    destruct Hent2 as (Ht2 & _).
    eapply findUnsynced_clean; [done| |done|done].
    cbn [t_rows]. intros r' Hr' Hid'.
    destruct (Hfrom r' Hr') as (r & Hr & ->).
    destruct (matches [PIn "id" (bind <$> ids)] r) eqn:Hm.
    + apply cell_insert_eq.
    + rewrite (matches_id_in ids id r Hid') in Hm.
      by rewrite bool_decide_eq_true_2 in Hm.
Qed.

(** ** insert *)

Lemma zip_fst_fmap_snd {A B C} (f : B → C) (l : list (A * B)) :
  zip l.*1 (f <$> l.*2) = prod_map id f <$> l.
Proof. induction l as [|[a b] l IH]; [done|]. cbn. by rewrite IH. Qed.

(** The columns and values of an [INSERT] built from an object pair up as
    the object itself, bound. *)
Lemma given_of_record (record : gmap string jsval) :
  (list_to_map (zip (SQLiteAdapter.keys record)
                    (bind <$> SQLiteAdapter.values record))
     : gmap string sqlval)
  = bind <$> record.
Proof.
  unfold SQLiteAdapter.keys, SQLiteAdapter.values.
  by rewrite zip_fst_fmap_snd, list_to_map_fmap, list_to_map_to_list.
Qed.

Lemma elem_of_keys (record : gmap string jsval) k :
  k ∈ SQLiteAdapter.keys record ↔ is_Some (record !! k).
Proof.
  unfold SQLiteAdapter.keys. rewrite list_elem_of_fmap. split.
  - intros ([k' v] & -> & Hin). apply elem_of_map_to_list in Hin. by exists v.
  - intros [v Hv]. exists (k, v). split; [done|]. by apply elem_of_map_to_list.
Qed.

(** A listed column with a value other than NULL is stored as given. *)
Lemma build_row_cell t cols vals k v :
  k ∈ col_names t →
  (list_to_map (zip cols vals) : gmap string sqlval) !! k = Some v →
  v ≠ SNull →
  cell (build_row t cols vals) k = v.
Proof.
  intros Hk Hgiven Hv. unfold build_row, col_names, cell in *.
  induction (t_columns t) as [|c cs IH]; [by apply not_elem_of_nil in Hk|].
  rewrite fmap_cons. cbn [list_to_map foldr].
  destruct (decide (c_name c = k)) as [<-|Hne].
  - cbn. rewrite lookup_insert_eq, Hgiven. cbn.
    rewrite (bool_decide_eq_false_2 _ Hv). by rewrite andb_false_r.
  - cbn. rewrite lookup_insert_ne by done. apply IH.
    rewrite fmap_cons in Hk. apply elem_of_cons in Hk as [?|?]; [congruence|done].
Qed.

Lemma new_record_lookup_base id now data :
  SQLiteAdapter.new_record id now data !! "id" = Some (JStr id)
  ∧ SQLiteAdapter.new_record id now data !! "created_at" = Some (JNum now)
  ∧ SQLiteAdapter.new_record id now data !! "updated_at" = Some (JNum now)
  ∧ SQLiteAdapter.new_record id now data !! "synced" = Some (JBool false)
  ∧ SQLiteAdapter.new_record id now data !! "deleted" = Some (JBool false).
Proof. unfold SQLiteAdapter.new_record. repeat split; by simplify_map_eq. Qed.

Lemma new_record_lookup_other id now data k :
  k ∉ base_fields → SQLiteAdapter.new_record id now data !! k = data !! k.
Proof.
  unfold base_fields, SQLiteAdapter.new_record. intros Hk.
  rewrite !lookup_insert_ne; [done|..]; intros <-; apply Hk;
    repeat (first [apply list_elem_of_here | apply list_elem_of_further]).
Qed.

Lemma new_record_is_Some id now data k :
  is_Some (SQLiteAdapter.new_record id now data !! k) → k ∈ base_fields ∨ is_Some (data !! k).
Proof.
  destruct (decide (k ∈ base_fields)) as [?|Hk]; [by left|].
  rewrite new_record_lookup_other by done. by right.
Qed.

(** [insert] is one [INSERT] of the stamped record; the engine's checks
    are its only way to fail. *)
Lemma insert_run w tableName data t :
  tables (store w) !! tableName = Some t →
  let id := uuid_at w (uuid_ctr w) in
  let record := SQLiteAdapter.new_record id (read_clock w) data in
  let r := build_row t (SQLiteAdapter.keys record)
             (bind <$> SQLiteAdapter.values record) in
  (∀ k, k ∈ base_fields ∨ is_Some (data !! k) → k ∈ col_names t) →
  notnull_ok (t_columns t) r = true →
  unique_ok (unique_keys (store w) tableName t) (t_rows t ++ [r]) r = true →
  ∃ w', SQLiteAdapter.insert tableName data w = (Ok id, w')
        ∧ store w'
          = set_table (store w) tableName
              (Table (t_columns t) (t_rows t ++ [r]))
        ∧ issued w'
          = issued w ++ [InsertInto tableName (SQLiteAdapter.keys record)
                           (bind <$> SQLiteAdapter.values record)].
Proof.
  intros Ht id record r Hcols Hnn Huniq.
  assert (forallb (has_col t) (SQLiteAdapter.keys record) = true) as Hhas.
  { apply forallb_forall. intros k Hk%list_elem_of_In%elem_of_keys.
    apply bool_decide_eq_true, Hcols.
    by apply (new_record_is_Some id (read_clock w) data). }
  eexists.
  unfold SQLiteAdapter.insert, bindM, uuidv4, Date_now, SQLiteAdapter.execute,
    engine_exec, ret.
  cbn [store next_uuid read_clock clock now_at].
  fold id. change (now_at w (clock w)) with (read_clock w). fold record.
  unfold exec. rewrite Ht, Hhas. cbn [negb]. fold r. rewrite Hnn, Huniq.
  cbn. done.
Qed.

Lemma known_columns t (data : gmap string jsval) :
  forallb (has_col t) (base_fields ++ SQLiteAdapter.keys data) = true →
  ∀ k, k ∈ base_fields ∨ is_Some (data !! k) → k ∈ col_names t.
Proof.
  intros Hall k Hk.
  apply (bool_decide_eq_true_1 (k ∈ col_names t)).
  rewrite forallb_forall in Hall. apply Hall, list_elem_of_In, elem_of_app.
  destruct Hk as [Hk|Hk]; [by left|right]. by apply elem_of_keys.
Qed.

Lemma stamped_cell t id now data k v :
  k ∈ col_names t →
  SQLiteAdapter.new_record id now data !! k = Some v →
  bind v ≠ SNull →
  cell (build_row t (SQLiteAdapter.keys (SQLiteAdapter.new_record id now data))
          (bind <$> SQLiteAdapter.values (SQLiteAdapter.new_record id now data)))
       k
  = bind v.
Proof.
  intros Hk Hrec Hv. apply build_row_cell; [done| |done].
  by rewrite given_of_record, lookup_fmap, Hrec.
Qed.

(** C5.  Let the table exist with the system columns and a column for
    every field of [data], and let the engine's NOT NULL and uniqueness
    checks accept the new row.  Then [insert] returns the identifier just
    generated; the row it appends carries that identifier, the current
    time as both [created_at] and [updated_at], [synced = 0] and
    [deleted = 0], and every non-null field of [data]; and, the identifier
    being new to the table, [findById] on it returns exactly that row. *)
Theorem insert_stores_stamped_record w tableName data t :
  tables (store w) !! tableName = Some t →
  let id := uuid_at w (uuid_ctr w) in
  let now := read_clock w in
  let record := SQLiteAdapter.new_record id now data in
  let r := build_row t (SQLiteAdapter.keys record)
             (bind <$> SQLiteAdapter.values record) in
  forallb (has_col t) (base_fields ++ SQLiteAdapter.keys data) = true →
  notnull_ok (t_columns t) r = true →
  unique_ok (unique_keys (store w) tableName t) (t_rows t ++ [r]) r = true →
  unused id (t_rows t) →
  ∃ w', SQLiteAdapter.insert tableName data w = (Ok id, w')
        ∧ rows_of w' tableName = t_rows t ++ [r]
        ∧ cell r "id" = SText id
        ∧ cell r "created_at" = SInt now
        ∧ cell r "updated_at" = SInt now
        ∧ cell r "synced" = SInt 0
        ∧ cell r "deleted" = SInt 0
        ∧ (∀ k v, k ∉ base_fields → data !! k = Some v → bind v ≠ SNull →
             cell r k = bind v)
        ∧ SQLiteAdapter.findById tableName (JStr id) w'
          = (Ok (Some (to_js r)), tick w').
Proof.
  intros Ht id now record r Hcolsb Hnn Huniq Hfresh.
  unfold unused in Hfresh. rewrite Forall_forall in Hfresh.
  pose proof (known_columns t data Hcolsb) as Hcols.
  destruct (insert_run w tableName data t Ht Hcols Hnn Huniq)
    as (w' & Hrun & Hstore & _).
  fold id now record r in Hrun, Hstore.


  destruct (new_record_lookup_base id now data) as (Rid & Rc & Ru & Rs & Rd).
  assert (∀ k, k ∈ base_fields → k ∈ col_names t) as Hbase.
  { intros k Hk. apply Hcols. by left. }
  assert (cell r "id" = SText id) as Cid.
  { apply (stamped_cell t id now data "id" (JStr id)); [|done|done].
    apply Hbase. apply list_elem_of_here. }
  assert (cell r "deleted" = SInt 0) as Cdel.
  { apply (stamped_cell t id now data "deleted" (JBool false)); [|done|done].
    apply Hbase. unfold base_fields.
    repeat (first [apply list_elem_of_here | apply list_elem_of_further]). }
  exists w'. split; [done|].
  assert (tables (store w') !! tableName
          = Some (Table (t_columns t) (t_rows t ++ [r]))) as Ht'.
  { rewrite Hstore. cbn. apply lookup_insert_eq. }
  split; [unfold rows_of; by rewrite Ht'|].
  split; [done|].
  split.
  { apply (stamped_cell t id now data "created_at" (JNum now)); [|done|done].
    apply Hbase. unfold base_fields.
    repeat (first [apply list_elem_of_here | apply list_elem_of_further]). }
  split.
  { apply (stamped_cell t id now data "updated_at" (JNum now)); [|done|done].
    apply Hbase. unfold base_fields.
    repeat (first [apply list_elem_of_here | apply list_elem_of_further]). }
  split.
  { apply (stamped_cell t id now data "synced" (JBool false)); [|done|done].
    apply Hbase. unfold base_fields.
    repeat (first [apply list_elem_of_here | apply list_elem_of_further]). }
  split; [done|].
  split.
  { intros k v Hk Hv Hnull.
    apply (stamped_cell t id now data k v); [|by rewrite new_record_lookup_other|done].
    apply Hcols. right. by exists v. }
  assert (run (SelectFrom tableName
                 [PEq "id" (SText id); PEq "deleted" (SInt 0)] None None None)
              (store w') = Ok [r]) as Hsel.
  { cbn -[has_col matches]. rewrite Ht'.
    assert (has_col (Table (t_columns t) (t_rows t ++ [r])) "id" = true) as ->.
    { apply bool_decide_eq_true. apply Hbase, list_elem_of_here. }
    assert (has_col (Table (t_columns t) (t_rows t ++ [r])) "deleted" = true) as ->.
    { apply bool_decide_eq_true. apply Hbase. unfold base_fields.
      repeat (first [apply list_elem_of_here | apply list_elem_of_further]). }
    cbn -[matches]. f_equal. rewrite filter_app.
    assert (filter (λ r0, matches [PEq "id" (SText id); PEq "deleted" (SInt 0)] r0)
                   (t_rows t) = []) as ->.
    { apply elem_of_nil_inv. intros r' [Hm Hr']%list_elem_of_filter.
      apply Is_true_true in Hm. cbn in Hm. apply andb_prop in Hm as [Hm _].
      apply sql_eqb_text_r in Hm. by apply (Hfresh r' Hr'). }
    rewrite app_nil_l, filter_cons_True, filter_nil; [done|].
    apply Is_true_true. cbn. rewrite Cid, Cdel. cbn.
    by rewrite String.eqb_refl. }
  unfold SQLiteAdapter.findById, bindM, SQLiteAdapter.query. cbn [bind].
  by rewrite (engine_query_ok _ _ _ Hsel).
Qed.

(** ** The download pass on a record unknown to [findById] *)



(** ** update *)

Lemma keys_nil (data : gmap string jsval) :
  SQLiteAdapter.keys data = [] ↔ data = ∅.
Proof.
  unfold SQLiteAdapter.keys. split.
  - intros H%fmap_nil_inv. by apply map_to_list_empty_iff.
  - intros ->. by rewrite map_to_list_empty.
Qed.

Lemma keys_values_length (data : gmap string jsval) :
  length (bind <$> SQLiteAdapter.values data) = length (SQLiteAdapter.keys data).
Proof.
  unfold SQLiteAdapter.keys, SQLiteAdapter.values. by rewrite !length_fmap.
Qed.

(** With at least one field, [update] is one [UPDATE] whose assignments
    are the fields in order, then [updated_at], then [synced]. *)
Lemma update_run tableName id data w :
  data ≠ ∅ →
  SQLiteAdapter.update tableName id data w
  = engine_exec
      (UpdateSet tableName
         (bound data ++ [("updated_at", SInt (read_clock w)); ("synced", SInt 0)])
         [PEq "id" (bind id)]) w.
Proof.
  intros Hne.
  unfold SQLiteAdapter.update, bindM, Date_now, SQLiteAdapter.execute.
  rewrite bool_decide_eq_false_2 by (by rewrite keys_nil).
  rewrite <- (keys_values_length data).
  rewrite take_app_length.
  rewrite lookup_app_r by done. rewrite Nat.sub_diag.
  rewrite lookup_app_r by lia.
  replace (S (length (bind <$> SQLiteAdapter.values data))
           - length (bind <$> SQLiteAdapter.values data))%nat with 1%nat by lia.
  cbn [lookup list_lookup default bind].
  unfold SQLiteAdapter.keys, SQLiteAdapter.values, bound.
  by rewrite zip_fst_fmap_snd.
Qed.

Lemma elem_of_bound data k v :
  (k, v) ∈ bound data ↔ ∃ jv, data !! k = Some jv ∧ v = bind jv.
Proof.
  unfold bound. rewrite list_elem_of_fmap. split.
  - intros ([k' jv] & [= -> ->] & Hin%elem_of_map_to_list). by exists jv.
  - intros (jv & Hjv & ->). exists (k, jv). split; [done|].
    by apply elem_of_map_to_list.
Qed.

Lemma apply_sets_bound data (r : gmap string sqlval) :
  apply_sets (bound data) r = (bind <$> data) ∪ r.
Proof.
  apply map_eq. intros k. destruct (data !! k) as [jv|] eqn:Hk.
  - destruct (apply_sets_lookup_in (bound data) k r) as (v & Hv & ->).
    { apply list_elem_of_fmap. exists (k, bind jv). split; [done|].
      apply elem_of_bound. by exists jv. }
    apply elem_of_bound in Hv as (jv' & Hjv' & ->). simplify_eq.
    symmetry. apply lookup_union_Some_l. by rewrite lookup_fmap, Hk.
  - rewrite apply_sets_lookup_ne.
    + symmetry. rewrite lookup_union_r; [done|]. by rewrite lookup_fmap, Hk.
    + intros ([k' v] & -> & (jv & Hjv & _)%elem_of_bound)%list_elem_of_fmap.
      cbn in Hk. congruence.
Qed.

Lemma apply_sets_update data now (r : gmap string sqlval) :
  apply_sets (bound data ++ [("updated_at", SInt now); ("synced", SInt 0)]) r
  = stamp data now r.
Proof.
  change (bound data ++ [("updated_at", SInt now); ("synced", SInt 0)])
    with (bound data ++ [("updated_at", SInt now)] ++ [("synced", SInt 0)]).
  rewrite app_assoc, !apply_sets_snoc. by rewrite apply_sets_bound.
Qed.

(** What an accepted [update] with at least one field does to the store:
    the rows whose [id] equals the given one are stamped, every other row
    and every other table is left as it was. *)
Lemma update_effect tableName id data w w' :
  data ≠ ∅ →
  SQLiteAdapter.update tableName id data w = (Ok tt, w') →
  ∃ t, tables (store w) !! tableName = Some t
       ∧ store w'
         = set_table (store w) tableName
             (Table (t_columns t)
                ((λ r, if sql_eqb (cell r "id") (bind id)
                       then stamp data (read_clock w) r else r)
                   <$> t_rows t)).
Proof.
  intros Hne Hrun. rewrite update_run in Hrun by done.
  apply engine_exec_inv in Hrun as (d & Hexec & ->).
  apply exec_update_inv in Hexec as (t & Ht & ->).
  exists t. split; [done|]. cbn [store set_store]. do 2 f_equal.
  unfold updated_rows. apply list_fmap_ext. intros _ r _. cbn.
  rewrite andb_true_r. by rewrite apply_sets_update.
Qed.


(** C6.  With no field to set, [update] hands the engine a text it cannot
    parse: the call throws whatever the table and the identifier, no row
    is stamped and the store is left as it was. *)
Theorem update_without_fields_throws tableName id w :
  ∃ w', SQLiteAdapter.update tableName id ∅ w
        = (Throw (ErrorObj "syntax error"), w')
        ∧ store w' = store w.
Proof.
  unfold SQLiteAdapter.update, bindM, Date_now.
  rewrite bool_decide_eq_true_2 by (by apply keys_nil).
  eexists. split; reflexivity.
Qed.

Lemma set_table_same d tbl t :
  tables d !! tbl = Some t →
  set_table d tbl (Table (t_columns t) (t_rows t)) = d.
Proof.
  intros Ht. destruct d as [ts ix], t as [cols rows]. unfold set_table. cbn in *.
  by rewrite insert_id.
Qed.




(** ** The download pass on a record known to [findById] *)

Lemma findById_ticks tableName id w res w' :
  SQLiteAdapter.findById tableName id w = (res, w') → w' = tick w.
Proof.
  unfold SQLiteAdapter.findById, bindM, SQLiteAdapter.query, engine_query.
  destruct (run _ (store w)); cbn; by intros [= _ <-].
Qed.

(** X17.  A remote record that is not strictly newer than the visible
    local row changes nothing in the store. *)
Lemma stale_remote_keeps_local tableName record w existing w1 :
  SQLiteAdapter.findById tableName (prop record "id") w = (Ok (Some existing), w1) →
  js_gt (prop record "updated_at") (prop existing "updated_at") = false →
  SyncManager.applyRemote tableName record w = (Ok tt, tick w)
  ∧ store (tick w) = store w.
Proof.
  intros Hfind Hgt. pose proof (findById_ticks _ _ _ _ _ Hfind) as ->.
  unfold SyncManager.applyRemote, bindM. by rewrite Hfind, Hgt.
Qed.

Lemma update_argument_nonempty record : SyncManager.update_argument record ≠ ∅.
Proof. unfold SyncManager.update_argument. apply insert_non_empty. Qed.

(** X18.  A remote record strictly newer than the visible local row is
    written through [update]: the local rows with that identifier take the
    remote fields, but their [updated_at] is the local clock and their
    [synced] is 0, whatever the record says. *)
Lemma newer_remote_is_stamped tableName record w existing w1 w' :
  SQLiteAdapter.findById tableName (prop record "id") w = (Ok (Some existing), w1) →
  js_gt (prop record "updated_at") (prop existing "updated_at") = true →
  SyncManager.applyRemote tableName record w = (Ok tt, w') →
  ∃ t, tables (store w) !! tableName = Some t
       ∧ rows_of w' tableName
         = (λ r, if sql_eqb (cell r "id") (bind (prop record "id"))
                 then stamp (SyncManager.update_argument record)
                            (read_clock (tick w)) r
                 else r) <$> t_rows t.
Proof.
  intros Hfind Hgt Hrun. pose proof (findById_ticks _ _ _ _ _ Hfind) as ->.
  unfold SyncManager.applyRemote, bindM in Hrun. rewrite Hfind, Hgt in Hrun.
  apply update_effect in Hrun as (t & Ht & Hstore);
    [|apply update_argument_nonempty].
  exists t. split; [done|]. unfold rows_of. rewrite Hstore. cbn.
  by rewrite lookup_insert_eq.
Qed.

(** ** Worked cases *)

(** C1.  A fresh install downloads one settings row that the remote
    service holds under the identifier [remote-1], created and modified in
    2024.  The record reaches the download pass with those values and
    [synced = true]; the row stored for it has the identifier [uuid-0],
    the local clock reading 1032 as both time stamps, and [synced = 0]. *)
Theorem downloaded_row_is_restamped :
  let w := with_remote "app_settings" [remote_row "remote-1"] installed in
  (λ o, (prop o "id", prop o "created_at", prop o "updated_at",
         prop o "synced", prop o "deleted"))
    <$> default [] (match (SupabaseAdapter.downloadTable "app_settings" 0 w).1
                    with Ok l => Some l | Throw _ => None end)
  = [(JStr "remote-1", JNum 1704067200000, JNum 1704153600000,
      JBool true, JBool false)]
  ∧ (SyncManager.syncTable SyncManager.initial "app_settings" w).1 = Ok tt
  ∧ (λ r, (cell r "id", cell r "created_at", cell r "updated_at",
           cell r "synced", cell r "deleted"))
      <$> rows_of (SyncManager.syncTable SyncManager.initial "app_settings" w).2
                  "app_settings"
    = [(SText "uuid-0", SInt 1032, SInt 1032, SInt 0, SInt 0)].
Proof. cbv zeta. do 2 (split; [vm_compute; reflexivity|]). vm_compute; reflexivity. Qed.

(** C2.  The local settings row [uuid-0] was last modified at 1029 and
    the remote copy in 2024, with another session length.  After the
    table's sync pass the local row has the remote session length, but
    its [updated_at] is the local clock reading 1035, not the remote
    time, and its [synced] is 0. *)
Theorem newer_remote_leaves_row_unsynced :
  let w := with_remote "app_settings" [remote_row "uuid-0"] with_settings in
  (λ r, (cell r "id", cell r "updated_at", cell r "work_session_duration"))
    <$> rows_of w "app_settings"
  = [(SText "uuid-0", SInt 1029, SInt 30)]
  ∧ (SyncManager.syncTable SyncManager.initial "app_settings" w).1 = Ok tt
  ∧ (λ r, (cell r "id", cell r "updated_at", cell r "work_session_duration",
           cell r "synced"))
      <$> rows_of (SyncManager.syncTable SyncManager.initial "app_settings" w).2
                  "app_settings"
    = [(SText "uuid-0", SInt 1035, SInt 50, SInt 0)].
Proof. cbv zeta. do 2 (split; [vm_compute; reflexivity|]). vm_compute; reflexivity. Qed.


(** C3.  A store set up by an earlier release holds one logged day and
    lacks the column [target_sessions], which the registry now declares
    NOT NULL without a default.  Both calls of [applyMigrations] return
    normally.  The second one again issues the [ADD COLUMN] the engine
    rejects and again appends a log entry for it; the column is still
    missing afterwards. *)
Theorem migrations_repeat_a_rejected_column :
  let first := MigrationManager.applyMigrations legacy in
  let second := MigrationManager.applyMigrations first.2 in
  first.1 = Ok tt
  ∧ second.1 = Ok tt
  ∧ issued_since first.2 second.2
    = [ CreateTable true "_migrations" MigrationManager.migrations_columns;
        AddColumn "pomodoro_log"
          (Column "target_sessions" "INTEGER" false false true false None);
        InsertInto "_migrations"
          ["version"; "table_name"; "operation"; "applied_at"]
          [SInt 1; SText "pomodoro_log"; SText "ADD_COLUMN:target_sessions";
           SInt 1053] ]
  ∧ length (rows_of second.2 "_migrations")
    = S (length (rows_of first.2 "_migrations"))
  ∧ has_col (table_of second.2 "pomodoro_log") "target_sessions" = false.
Proof. cbv zeta. do 4 (split; [vm_compute; reflexivity|]). vm_compute; reflexivity. Qed.

(** On a fresh install the second call finds everything in place: it
    issues the guarded creation of the tracking table and nothing else,
    and the store is left as the first call made it. *)
Lemma migrations_idempotent_on_fresh_install :
  let second := MigrationManager.applyMigrations installed in
  second.1 = Ok tt
  ∧ issued_since installed second.2
    = [ CreateTable true "_migrations" MigrationManager.migrations_columns ]
  ∧ store second.2 = store installed.
Proof. cbv zeta. do 2 (split; [vm_compute; reflexivity|]). vm_compute; reflexivity. Qed.

(** ** The general statements at concrete inputs *)

Lemma head_elem_of (l : list (gmap string sqlval)) :
  length l ≠ 0%nat → default ∅ (head l) ∈ l.
Proof. destruct l; [done|]. intros _. apply list_elem_of_here. Qed.

(** Soft-deleting the one settings row. *)
Lemma soft_delete_visibility_witness :
  ∃ w1, SQLiteAdapter.delete_ "app_settings" "uuid-0" with_settings = (Ok tt, w1)
        ∧ (SQLiteAdapter.findById "app_settings" (JStr "uuid-0") w1).1 = Ok None.
Proof.
  destruct (soft_delete_visibility with_settings "app_settings" "uuid-0"
              (table_of with_settings "app_settings")
              (default ∅ (head (t_rows (table_of with_settings "app_settings")))))
    as (w1 & Hdel & _ & _ & Hfind & _).
  - split; [vm_compute; reflexivity|].
    split; vm_compute; reflexivity.
  - apply head_elem_of. vm_compute. discriminate.
  - vm_compute. reflexivity.
  - exists w1. split; assumption.
Defined.

(** Inserting the first settings row on a fresh install. *)
Lemma insert_stores_stamped_record_witness :
  ∃ w', SQLiteAdapter.insert "app_settings" demo_settings installed
        = (Ok (uuid_at installed (uuid_ctr installed)), w')
        ∧ length (rows_of w' "app_settings") = 1%nat.
Proof.
  destruct (insert_stores_stamped_record installed "app_settings" demo_settings
              (table_of installed "app_settings"))
    as (w' & Hrun & Hrows & _).
  - vm_compute. reflexivity.
  - vm_compute. reflexivity.
  - vm_compute. reflexivity.
  - vm_compute. reflexivity.
  - unfold unused, hidden. apply (bool_decide_unpack _). vm_compute. exact I.
  - exists w'. split; [exact Hrun|]. rewrite Hrows. vm_compute. reflexivity.
Defined.


(* ===================================================================== *)
(** * Further properties                                                  *)
(* ===================================================================== *)

(** ** The storage adapter *)





(** *** Reading *)

Lemma sql_leb_total a b : sql_leb a b = true ∨ sql_leb b a = true.
Proof.
  destruct a as [|x|s], b as [|y|t]; cbn; auto.
  - destruct (Z.leb_spec x y); [by left|right]. apply Z.leb_le. lia.
  - apply String.leb_total.
Qed.

#[local] Instance order_rel_total c desc : Total (order_rel c desc).
Proof.
  intros r1 r2. unfold order_rel. destruct desc.
  - destruct (sql_leb_total (cell r2 c) (cell r1 c)) as [->| ->]; [by left|by right].
  - destruct (sql_leb_total (cell r1 c) (cell r2 c)) as [->| ->]; [by left|by right].
Qed.




Lemma findUnsynced_run w tableName t :
  tables (store w) !! tableName = Some t →
  has_col t "synced" = true →
  has_col t "updated_at" = true →
  SQLiteAdapter.findUnsynced tableName w
  = (Ok (to_js <$> merge_sort (order_rel "updated_at" false)
                     (filter (λ r, matches [PEq "synced" (SInt 0)] r)
                             (t_rows t))),
     tick w).
Proof.
  intros Ht Hs Hu.
  unfold SQLiteAdapter.findUnsynced, SQLiteAdapter.query.
  apply engine_query_ok. cbn -[has_col matches]. by rewrite Ht, Hu, Hs.
Qed.

Lemma unsynced_filter (rows : list (gmap string sqlval)) :
  filter (λ r, matches [PEq "synced" (SInt 0)] r) rows
  = filter (λ r, cell r "synced" = SInt 0) rows.
Proof.
  apply list_filter_iff. intros r. cbn. rewrite andb_true_r.
  rewrite Is_true_true. apply sql_eqb_int_r.
Qed.

(** X3.  [findUnsynced] on a table that has the columns [synced] and
    [updated_at] returns exactly the stored rows with [synced = 0],
    soft-deleted ones included, each once, ordered by [updated_at] with
    the oldest change first; it writes nothing. *)
Theorem findUnsynced_oldest_first w tableName t :
  tables (store w) !! tableName = Some t →
  has_col t "synced" = true →
  has_col t "updated_at" = true →
  ∃ rows,
    SQLiteAdapter.findUnsynced tableName w = (Ok (to_js <$> rows), tick w)
    ∧ rows ≡ₚ filter (λ r, cell r "synced" = SInt 0) (t_rows t)
    ∧ Sorted (λ r1 r2, sql_leb (cell r1 "updated_at") (cell r2 "updated_at"))
             rows.
Proof.
  intros Ht Hs Hu.
  exists (merge_sort (order_rel "updated_at" false)
            (filter (λ r, matches [PEq "synced" (SInt 0)] r) (t_rows t))).
  split; [|split].
  - by apply findUnsynced_run.
  - by rewrite merge_sort_Permutation, unsynced_filter.
  - apply (Sorted_merge_sort (order_rel "updated_at" false)).
Qed.

(** A table with one unsynced row. *)
Lemma findUnsynced_oldest_first_witness :
  ∃ rows, SQLiteAdapter.findUnsynced "app_settings" with_settings
          = (Ok (to_js <$> rows), tick with_settings)
          ∧ length rows = 1%nat.
Proof.
  destruct (findUnsynced_oldest_first with_settings "app_settings"
              (table_of with_settings "app_settings"))
    as (rows & Hrun & Hperm & _).
  - vm_compute. reflexivity.
  - vm_compute. reflexivity.
  - vm_compute. reflexivity.
  - exists rows. split; [exact Hrun|].
    rewrite Hperm. vm_compute. reflexivity.
Defined.



(** X5.  [count] agrees with [findAll]: whenever [findAll] with the same
    equality conditions and no limit returns, [count] returns the number
    of records it returned. *)
Theorem count_is_length_of_findAll w tableName conds found :
  (SQLiteAdapter.findAll tableName (Conditions None None None None conds) w).1
  = Ok found →
  (SQLiteAdapter.count tableName conds w).1
  = Ok (JNum (Z.of_nat (length found))).
Proof.
  unfold SQLiteAdapter.findAll, SQLiteAdapter.count, SQLiteAdapter.query,
    engine_query, bindM.
  cbn -[has_col matches].
  destruct (tables (store w) !! tableName) as [t|]; [|done].
  set (wh := (λ kv : string * jsval, PEq kv.1 (bind kv.2)) <$> map_to_list conds).
  destruct (has_col t "created_at"); [|done].
  destruct (has_col t "deleted"); [|done].
  cbn -[has_col matches].
  destruct (forallb (has_col t) (pred_col <$> wh)); [|done].
  cbn -[has_col matches]. intros [= <-].
  rewrite length_fmap, merge_sort_Permutation.
  set (n := length (filter _ (t_rows t))).
  unfold prop. cbn. rewrite lookup_fmap, lookup_singleton_eq. cbn.
  destruct (Z.eqb_spec (Z.of_nat n) 0) as [->|_]; done.
Qed.

(** Counting the notes: the soft-deleted one is left out. *)
Lemma count_is_length_of_findAll_witness :
  (SQLiteAdapter.count "notes" ∅ notes_world).1
  = Ok (JNum (Z.of_nat
                (length (to_js <$> take 1 (rows_of notes_world "notes"))))).
Proof.
  apply (count_is_length_of_findAll notes_world "notes" ∅
           (to_js <$> take 1 (rows_of notes_world "notes"))).
  vm_compute. reflexivity.
Defined.

(** *** Writing *)

Lemma mark_synced_nil r : mark_synced [] r = r.
Proof. done. Qed.






Lemma updated_rows_delete id now rows :
  updated_rows (delete_sets now) [PEq "id" (SText id)] rows
  = tombstone id now <$> rows.
Proof.
  unfold updated_rows. apply list_fmap_ext. intros _ r _.
  unfold tombstone. cbn. by rewrite andb_true_r.
Qed.

(** X7.  On a table of the registry [delete] succeeds whether or not the
    identifier exists.  It removes no row: every row is kept in place, a
    row with another identifier untouched, a row with the given one
    flagged [deleted = 1], [synced = 0] and stamped, all its other fields
    kept.  Other tables and the indexes are as before, and when no row has
    the identifier the store is exactly as before. *)
Theorem delete_keeps_every_row w tableName id t :
  entity_table (store w) tableName t →
  ∃ w1,
    SQLiteAdapter.delete_ tableName id w = (Ok tt, w1)
    ∧ rows_of w1 tableName = tombstone id (read_clock w) <$> t_rows t
    ∧ length (rows_of w1 tableName) = length (t_rows t)
    ∧ (∀ r k, k ∉ ["deleted"; "synced"; "updated_at"] →
         tombstone id (read_clock w) r !! k = r !! k)
    ∧ indexes (store w1) = indexes (store w)
    ∧ (∀ other, other ≠ tableName →
         tables (store w1) !! other = tables (store w) !! other)
    ∧ (unused id (t_rows t) → store w1 = store w).
Proof.
  intros Hent. pose proof Hent as (Ht & _).
  destruct (delete_run w tableName id t Hent) as (w1 & Hrun & Hstore).
  rewrite updated_rows_delete in Hstore.
  exists w1. split; [done|].
  unfold rows_of. rewrite Hstore. cbn. rewrite lookup_insert_eq.
  split; [done|]. split; [apply length_fmap|]. split.
  { intros r k Hk. unfold tombstone.
    destruct (sql_eqb (cell r "id") (SText id)); [|done].
    rewrite !lookup_insert_ne; [done|..]; intros <-; apply Hk;
      repeat (first [apply list_elem_of_here | apply list_elem_of_further]). }
  split; [done|]. split.
  { intros other Hother. by rewrite lookup_insert_ne. }
  intros Hunused. unfold unused in Hunused. rewrite Forall_forall in Hunused.
  rewrite (list_fmap_ext (tombstone id (read_clock w)) (λ r, r) (t_rows t)).
  - rewrite list_fmap_id. by apply set_table_same.
  - intros i r Hr%list_elem_of_lookup_2. unfold tombstone.
    destruct (sql_eqb (cell r "id") (SText id)) eqn:Heq; [|done].
    apply sql_eqb_text_r in Heq. by destruct (Hunused r Hr).
Qed.

(** Soft-deleting the one settings row. *)
Lemma delete_keeps_every_row_witness :
  ∃ w1, SQLiteAdapter.delete_ "app_settings" "uuid-0" with_settings = (Ok tt, w1)
        ∧ length (rows_of w1 "app_settings") = 1%nat.
Proof.
  destruct (delete_keeps_every_row with_settings "app_settings" "uuid-0"
              (table_of with_settings "app_settings"))
    as (w1 & Hrun & _ & Hlen & _).
  - split; [vm_compute; reflexivity|]. split; vm_compute; reflexivity.
  - exists w1. split; [exact Hrun|]. rewrite Hlen. vm_compute. reflexivity.
Defined.

(** *** Missing tables and unknown identifiers *)



Lemma head_of_fmap {A B} (f : A → B) (l : list A) :
  head (f <$> l) = f <$> head l.
Proof. by destruct l. Qed.

(** X9.  On a table with the columns [id] and [deleted], [findById]
    never throws and writes nothing.  It answers null exactly when no
    stored row has the identifier with [deleted = 0]; otherwise it answers
    the first such row in insertion order. *)
Theorem findById_first_visible w tableName id t :
  tables (store w) !! tableName = Some t →
  has_col t "id" = true →
  has_col t "deleted" = true →
  let visible := filter (λ r, cell r "id" = SText id ∧ cell r "deleted" = SInt 0)
                        (t_rows t) in
  SQLiteAdapter.findById tableName (JStr id) w
  = (Ok (to_js <$> head visible), tick w)
  ∧ (head visible = None
     ↔ ∀ r, r ∈ t_rows t → cell r "id" = SText id → cell r "deleted" ≠ SInt 0).
Proof.
  intros Ht Hid Hdel visible. split.
  - assert (run (SelectFrom tableName
                   [PEq "id" (SText id); PEq "deleted" (SInt 0)] None None None)
                (store w) = Ok visible) as Hrun.
    { cbn -[has_col matches]. rewrite Ht, Hid, Hdel. cbn -[matches].
      f_equal. unfold visible. apply list_filter_iff. intros r. cbn.
      rewrite andb_true_r, Is_true_true, andb_true_iff.
      by rewrite sql_eqb_text_r, sql_eqb_int_r. }
    unfold SQLiteAdapter.findById, bindM, SQLiteAdapter.query. cbn [bind].
    rewrite (engine_query_ok _ _ _ Hrun). unfold ret.
    by rewrite head_of_fmap.
  - rewrite head_None. unfold visible. split.
    + intros Hnil r Hr Hrid Hrdel.
      eapply filter_nil_not_elem_of; [exact Hnil| |exact Hr]. done.
    + intros Hall. apply elem_of_nil_inv.
      intros r [[Hrid Hrdel] Hr]%list_elem_of_filter. by apply (Hall r Hr).
Qed.

(** Looking up the one settings row. *)
Lemma findById_first_visible_witness :
  SQLiteAdapter.findById "app_settings" (JStr "uuid-0") with_settings
  = (Ok (to_js
           <$> head (filter (λ r, cell r "id" = SText "uuid-0"
                                  ∧ cell r "deleted" = SInt 0)
                            (t_rows (table_of with_settings "app_settings")))),
     tick with_settings).
Proof.
  apply (findById_first_visible with_settings "app_settings" "uuid-0"
           (table_of with_settings "app_settings")).
  - vm_compute. reflexivity.
  - vm_compute. reflexivity.
  - vm_compute. reflexivity.
Defined.

(** ** The migration manager *)

Lemma extends_refl d : extends d d.
Proof.
  split; [|done]. intros n t Ht. exists t. split; [done|]. split; [done|].
  intros i r Hr. exists r. by split.
Qed.

Lemma extends_trans d1 d2 d3 : extends d1 d2 → extends d2 d3 → extends d1 d3.
Proof.
  intros [Ht12 Hi12] [Ht23 Hi23]. split; [|by auto].
  intros n t1 H1.
  destruct (Ht12 _ _ H1) as (t2 & H2 & Hp12 & Hr12).
  destruct (Ht23 _ _ H2) as (t3 & H3 & Hp23 & Hr23).
  exists t3. split; [done|]. split; [by etrans|].
  intros i r1 Hi.
  destruct (Hr12 _ _ Hi) as (r2 & Hi2 & Hc12).
  destruct (Hr23 _ _ Hi2) as (r3 & Hi3 & Hc23).
  exists r3. split; [done|]. intros c Hc.
  rewrite Hc23, Hc12; [done|done|].
  destruct Hp12 as [k ->]. apply elem_of_app. by left.
Qed.

Lemma extends_set_table d tbl t t' :
  tables d !! tbl = Some t →
  col_names t `prefix_of` col_names t' →
  (∀ i r, t_rows t !! i = Some r →
     ∃ r', t_rows t' !! i = Some r'
           ∧ ∀ c, c ∈ col_names t → cell r' c = cell r c) →
  extends d (set_table d tbl t').
Proof.
  intros Ht Hp Hr. split; [|done]. intros n t0 Hn. cbn.
  destruct (decide (n = tbl)) as [->|Hne].
  - rewrite lookup_insert_eq. simplify_eq. eauto.
  - rewrite lookup_insert_ne by done.
    exists t0. split; [done|]. split; [done|]. intros i r Hi. exists r. by split.
Qed.

(** A statement other than [UPDATE] that the engine accepts leaves a
    store that extends the one before. *)
Lemma exec_extends s d d' : additive s = true → exec s d = Ok d' → extends d d'.
Proof.
  destruct s as [ine n cols|tbl c|uniq n tbl cols|tbl cols vals|tbl sets wh|txt];
    cbn; intros Hadd Hexec; try done.
  - destruct (tables d !! n) as [t|] eqn:Hn.
    + destruct ine; [|done]. simplify_eq. apply extends_refl.
    + repeat (case_match; try done). simplify_eq.
      split; [|done]. intros m t Hm. cbn.
      rewrite lookup_insert_ne by congruence.
      exists t. split; [done|]. split; [done|].
      intros i r Hi. exists r. by split.
  - destruct (tables d !! tbl) as [t|] eqn:Ht; [|done].
    unfold has_col in Hexec. case_bool_decide as Hcol; [done|].
    repeat (case_match; try done). simplify_eq.
    apply (extends_set_table _ _ t); [done| |].
    + unfold col_names. cbn. rewrite fmap_app. by apply prefix_app_r.
    + intros i r Hi. cbn. rewrite list_lookup_fmap, Hi. cbn.
      eexists. split; [done|]. intros k Hk. apply cell_insert_ne.
      intros Heq. by subst k.
  - destruct (indexes d !! n) as [ix|] eqn:Hn; [by simplify_eq; apply extends_refl|].
    destruct (tables d !! tbl) as [t|]; [|done].
    repeat (case_match; try done). simplify_eq.
    split.
    + intros m t0 Hm. exists t0. split; [done|]. split; [done|].
      intros i r Hi. exists r. by split.
    + intros m ix Hm. cbn. rewrite lookup_insert_ne by congruence. done.
  - destruct (tables d !! tbl) as [t|] eqn:Ht; [|done].
    repeat (case_match; try done). simplify_eq.
    apply (extends_set_table _ _ t); [done|done|].
    intros i r Hi. cbn. exists r. split; [|done].
    by apply lookup_app_l_Some.
Qed.

Lemma keeps_ret {A} (a : A) : keeps (ret a).
Proof. intros w. apply extends_refl. Qed.

Lemma keeps_bind {A B} (m : M A) (k : A → M B) :
  keeps m → (∀ a, keeps (k a)) → keeps (bindM m k).
Proof.
  intros Hm Hk w. unfold bindM. specialize (Hm w).
  destruct (m w) as [[a|e] w1]; [|done].
  eapply extends_trans; [exact Hm|apply Hk].
Qed.

Lemma keeps_try_catch {A} (m : M A) (h : thrown → M A) :
  keeps m → (∀ e, keeps (h e)) → keeps (try_catch m h).
Proof.
  intros Hm Hh w. unfold try_catch. specialize (Hm w).
  destruct (m w) as [[a|e] w1]; [done|].
  eapply extends_trans; [exact Hm|apply Hh].
Qed.

Lemma keeps_for_each {A} (l : list A) (f : A → M unit) :
  (∀ x, keeps (f x)) → keeps (for_each l f).
Proof.
  intros Hf. induction l as [|x l IH]; [apply keeps_ret|].
  cbn. apply keeps_bind; [apply Hf|]. by intros _.
Qed.

Lemma keeps_engine_query q : keeps (engine_query q).
Proof.
  intros w. unfold engine_query. destruct (run q (store w)); apply extends_refl.
Qed.

Lemma keeps_engine_exec s : additive s = true → keeps (engine_exec s).
Proof.
  intros Hadd w. unfold engine_exec.
  destruct (exec s (store w)) as [d|e] eqn:Hexec; cbn.
  - by eapply exec_extends.
  - apply extends_refl.
Qed.

Lemma keeps_execute sql params :
  (∀ ps, additive (sql ps) = true) → keeps (MigrationManager.execute sql params).
Proof.
  intros Hadd w. unfold MigrationManager.execute.
  destruct (platform w); by apply keeps_engine_exec.
Qed.

Lemma keeps_recordMigration tableName operation :
  keeps (MigrationManager.recordMigration tableName operation).
Proof.
  apply keeps_bind; [intros w; apply extends_refl|].
  intros now. by apply keeps_execute.
Qed.

Lemma keeps_ensureTableExists schema :
  keeps (MigrationManager.ensureTableExists schema).
Proof.
  apply keeps_bind.
  { apply keeps_bind; [apply keeps_engine_query|intros; apply keeps_ret]. }
  intros b. destruct b; cbn; [apply keeps_ret|].
  apply keeps_bind; [by apply keeps_execute|].
  intros _. apply keeps_recordMigration.
Qed.

Lemma keeps_ensureColumnsExist schema :
  keeps (MigrationManager.ensureColumnsExist schema).
Proof.
  apply keeps_bind; [apply keeps_engine_query|].
  intros existing. apply keeps_for_each. intros [columnName definition].
  case_match; [|apply keeps_ret].
  apply keeps_bind; [|intros _; apply keeps_recordMigration].
  apply keeps_try_catch; [by apply keeps_execute|intros; apply keeps_ret].
Qed.

Lemma keeps_ensureIndexesExist schema :
  keeps (MigrationManager.ensureIndexesExist schema).
Proof.
  unfold MigrationManager.ensureIndexesExist.
  destruct (indexes_ schema) as [idxs|]; [|apply keeps_ret].
  apply keeps_for_each. intros index.
  apply keeps_bind.
  { apply keeps_bind; [apply keeps_engine_query|intros; apply keeps_ret]. }
  intros b. destruct b; cbn; [apply keeps_ret|].
  apply keeps_bind; [by apply keeps_execute|].
  intros _. apply keeps_recordMigration.
Qed.

Lemma keeps_schema_step schema :
  keeps (MigrationManager.ensureTableExists schema >>
         MigrationManager.ensureColumnsExist schema >>
         MigrationManager.ensureIndexesExist schema).
Proof.
  apply keeps_bind; [apply keeps_ensureTableExists|]. intros _.
  apply keeps_bind; [apply keeps_ensureColumnsExist|]. intros _.
  apply keeps_ensureIndexesExist.
Qed.

Lemma keeps_migrate registry : keeps (MigrationManager.migrate registry).
Proof. apply keeps_for_each. intros schema. apply keeps_schema_step. Qed.

(** X10.  Migrations only add.  From any store, on any platform and for
    any registry, whether the run completes or throws half way: every
    table that was there is still there, its columns are the first columns
    of what it has now, every row is still at its place with the values it
    had in those columns, and every index is still there. *)
Theorem migrations_only_add registry w :
  extends (store w)
          (store ((MigrationManager.initializeMigrationTable >>
                   MigrationManager.migrate registry) w).2)
  ∧ extends (store w) (store (MigrationManager.applyMigrations w).2).
Proof.
  split.
  - apply (keeps_bind MigrationManager.initializeMigrationTable);
      [by apply keeps_execute|]. intros _. apply keeps_migrate.
  - apply (keeps_bind MigrationManager.initializeMigrationTable);
      [by apply keeps_execute|]. intros _. apply keeps_migrate.
Qed.

Lemma in_place_extends d d' schema :
  in_place d schema → extends d d' → in_place d' schema.
Proof.
  intros [[t Ht] Hidx] [Htab Hind]. split.
  - destruct (Htab _ _ Ht) as (t' & -> & _). done.
  - eapply Forall_impl; [exact Hidx|]. intros index [ix Hix]. cbn.
    by rewrite (Hind _ _ Hix).
Qed.

(** What holds for an element once its turn has returned still holds when
    the loop has returned, if later turns only extend the store. *)
Lemma for_each_ok {A} (P : A → database → Prop) (l : list A) (f : A → M unit) :
  (∀ x, keeps (f x)) →
  (∀ x d d', P x d → extends d d' → P x d') →
  (∀ x w w', f x w = (Ok tt, w') → P x (store w')) →
  ∀ w w', for_each l f w = (Ok tt, w') → Forall (λ x, P x (store w')) l.
Proof.
  intros Hk Hmono Hf. induction l as [|x l IH]; intros w w' Hrun; [constructor|].
  cbn in Hrun. unfold bindM in Hrun.
  destruct (f x w) as [[[]|e] w1] eqn:Hx; [|done].
  constructor; [|by eapply IH].
  apply (Hmono x (store w1)); [by eapply Hf|].
  pose proof (keeps_for_each l f Hk w1) as Hext. by rewrite Hrun in Hext.
Qed.

Lemma execute_inv sql params w w' :
  MigrationManager.execute sql params w = (Ok tt, w') →
  ∃ ps, exec (sql ps) (store w) = Ok (store w').
Proof.
  unfold MigrationManager.execute.
  destruct (platform w); intros (d & Hexec & ->)%engine_exec_inv; eauto.
Qed.

Lemma checkTableExists_run tableName w :
  MigrationManager.checkTableExists tableName w
  = (Ok (bool_decide (is_Some (tables (store w) !! tableName))), tick w).
Proof.
  unfold MigrationManager.checkTableExists, MigrationManager.query, bindM,
    engine_query, ret. cbn.
  by case_bool_decide.
Qed.

Lemma checkIndexExists_run indexName w :
  MigrationManager.checkIndexExists indexName w
  = (Ok (bool_decide (is_Some (indexes (store w) !! indexName))), tick w).
Proof.
  unfold MigrationManager.checkIndexExists, MigrationManager.query, bindM,
    engine_query, ret. cbn.
  by case_bool_decide.
Qed.

Lemma ensureTableExists_ok schema w w' :
  MigrationManager.ensureTableExists schema w = (Ok tt, w') →
  is_Some (tables (store w') !! name schema).
Proof.
  unfold MigrationManager.ensureTableExists, bindM.
  rewrite checkTableExists_run.
  case_bool_decide as Hpresent; cbn [negb].
  { by intros [= <-]. }
  destruct (MigrationManager.createTable schema (tick w)) as [[[]|e] w1] eqn:Hc;
    [|done].
  intros Hrec.
  pose proof (keeps_recordMigration (name schema) "CREATE_TABLE" w1) as [Hext _].
  rewrite Hrec in Hext. cbn [snd] in Hext.
  apply execute_inv in Hc as [_ Hexec]. cbn in Hexec.
  destruct (tables (store w) !! name schema) as [t|] eqn:Ht; [done|].
  repeat (case_match; try done). simplify_eq.
  edestruct (Hext (name schema)) as (t' & -> & _); [|done].
  match goal with H : set_table _ _ _ = store w1 |- _ => rewrite <- H end.
  cbn. apply lookup_insert_eq.
Qed.

Lemma ensureIndexesExist_ok schema w w' :
  MigrationManager.ensureIndexesExist schema w = (Ok tt, w') →
  Forall (λ index, is_Some (indexes (store w') !! idx_name index))
         (default [] (indexes_ schema)).
Proof.
  unfold MigrationManager.ensureIndexesExist.
  destruct (indexes_ schema) as [idxs|]; [|constructor]. cbn [default].
  apply (for_each_ok (λ index d, is_Some (indexes d !! idx_name index))).
  - intros index. apply keeps_bind.
    { apply keeps_bind; [apply keeps_engine_query|intros; apply keeps_ret]. }
    intros b. destruct b; cbn; [apply keeps_ret|].
    apply keeps_bind; [by apply keeps_execute|].
    intros _. apply keeps_recordMigration.
  - intros index d d' [ix Hix] [_ Hind]. by rewrite (Hind _ _ Hix).
  - intros index w0 w1. unfold bindM. rewrite checkIndexExists_run.
    case_bool_decide as Hpresent; cbn [negb].
    { by intros [= <-]. }
    destruct (MigrationManager.createIndex (name schema) (idx_name index)
                (idx_columns index) (idx_unique index) (tick w0))
      as [[[]|e] w2] eqn:Hc; [|done].
    intros Hrec.
    pose proof (keeps_recordMigration (name schema)
                  ("CREATE_INDEX:" +:+ idx_name index) w2) as [_ Hext].
    rewrite Hrec in Hext. cbn [snd] in Hext.
    apply execute_inv in Hc as [_ Hexec]. cbn in Hexec.
    destruct (indexes (store w0) !! idx_name index) as [ix|] eqn:Hix.
    { by destruct Hpresent. }
    destruct (tables (store w0) !! name schema) as [t|]; [|done].
    repeat (case_match; try done). simplify_eq.
    erewrite Hext; [done|].
    match goal with H : Database _ _ = store w2 |- _ => rewrite <- H end.
    cbn. apply lookup_insert_eq.
Qed.

Lemma schema_step_ok schema w w' :
  (MigrationManager.ensureTableExists schema >>
   MigrationManager.ensureColumnsExist schema >>
   MigrationManager.ensureIndexesExist schema) w = (Ok tt, w') →
  in_place (store w') schema.
Proof.
  unfold bindM at 1.
  destruct (MigrationManager.ensureTableExists schema w) as [[[]|e] w1] eqn:Ht;
    [|done].
  unfold bindM.
  destruct (MigrationManager.ensureColumnsExist schema w1) as [[[]|e] w2] eqn:Hc;
    [|done].
  intros Hi. split; [|by eapply ensureIndexesExist_ok].
  apply ensureTableExists_ok in Ht as [t Ht].
  pose proof (keeps_ensureColumnsExist schema w1) as Hext1.
  pose proof (keeps_ensureIndexesExist schema w2) as Hext2.
  rewrite Hc in Hext1. rewrite Hi in Hext2. cbn in Hext1, Hext2.
  destruct (extends_trans _ _ _ Hext1 Hext2) as [Hext _].
  destruct (Hext _ _ Ht) as (t' & -> & _). done.
Qed.

(** X11.  When the migration of a registry returns, the tracking table
    exists, every table of the registry exists, and an index exists under
    every index name the registry declares.  ([applyMigrations] is this
    run on [SCHEMA_REGISTRY].) *)
Theorem completed_migration_in_place registry w w' :
  (MigrationManager.initializeMigrationTable >>
   MigrationManager.migrate registry) w = (Ok tt, w') →
  is_Some (tables (store w') !! "_migrations")
  ∧ Forall (in_place (store w')) registry.*2.
Proof.
  unfold bindM at 1.
  destruct (MigrationManager.initializeMigrationTable w) as [[[]|e] w1] eqn:Hi;
    [|done].
  intros Hm. split.
  - apply execute_inv in Hi as [_ Hexec]. cbn in Hexec.
    pose proof (keeps_migrate registry w1) as [Hext _].
    rewrite Hm in Hext. cbn in Hext.
    destruct (tables (store w) !! "_migrations") as [t|] eqn:Ht.
    + injection Hexec as Hst. rewrite <- Hst in Hext.
      destruct (Hext _ _ Ht) as (t' & -> & _). done.
    + cbn in Hexec. injection Hexec as Hst.
      destruct (Hext "_migrations"
                  (Table MigrationManager.migrations_columns []))
        as (t' & -> & _); [|done].
      rewrite <- Hst. cbn. apply lookup_insert_eq.
  - revert Hm. unfold MigrationManager.migrate.
    apply (for_each_ok (λ schema d, in_place d schema)).
    + apply keeps_schema_step.
    + intros schema d d'. apply in_place_extends.
    + apply schema_step_ok.
Qed.

(** The first start on an empty store with a registry of one table. *)
Lemma completed_migration_in_place_witness :
  is_Some (tables (store ((MigrationManager.initializeMigrationTable >>
                           MigrationManager.migrate notes_registry)
                            (blank web)).2) !! "_migrations")
  ∧ Forall (in_place (store ((MigrationManager.initializeMigrationTable >>
                              MigrationManager.migrate notes_registry)
                               (blank web)).2))
           notes_registry.*2.
Proof.
  apply (completed_migration_in_place notes_registry (blank web)).
  apply run_ok_eta. vm_compute. reflexivity.
Defined.

(** *** The capacitor branch *)

Lemma execute_capacitor sql params w :
  platform w = capacitor →
  MigrationManager.execute sql params w = engine_exec (sql []) w.
Proof. unfold MigrationManager.execute. by intros ->. Qed.

Lemma recordMigration_capacitor tableName operation w :
  on_capacitor w →
  ∃ w', MigrationManager.recordMigration tableName operation w
        = (Throw (ErrorObj "NOT NULL constraint failed"), w').
Proof.
  intros [Hp (t & Ht & Hcols)].
  unfold MigrationManager.recordMigration, bindM, Date_now.
  rewrite execute_capacitor by done.
  unfold engine_exec, exec. rewrite Ht.
  destruct t as [cols rows]. cbn in Hcols. subst cols.
  eexists. vm_compute. reflexivity.
Qed.

Lemma on_capacitor_eq w w' :
  store w' = store w → platform w' = platform w → on_capacitor w → on_capacitor w'.
Proof. unfold on_capacitor. by intros -> ->. Qed.

(** A statement on another table, run on the capacitor branch, leaves the
    branch and the tracking table as they are. *)
Lemma engine_exec_on_capacitor s w r w' :
  on_capacitor w →
  (∀ d, exec s (store w) = Ok d →
        tables d !! "_migrations" = tables (store w) !! "_migrations") →
  engine_exec s w = (r, w') → on_capacitor w'.
Proof.
  intros [Hp (t & Ht & Hcols)] Hsame. unfold engine_exec.
  destruct (exec s (store w)) as [d|e] eqn:Hexec; intros [= <- <-].
  - split; [done|]. exists t. cbn. by rewrite (Hsame d).
  - split; [done|]. by exists t.
Qed.

Lemma for_each_unchanged {A} (l : list A) (f : A → M unit) :
  (∀ x w w', on_capacitor w → f x w = (Ok tt, w') →
             store w' = store w ∧ platform w' = platform w) →
  ∀ w w', on_capacitor w → for_each l f w = (Ok tt, w') →
          store w' = store w ∧ platform w' = platform w.
Proof.
  intros Hf. induction l as [|x l IH]; intros w w' Hw; cbn.
  { by intros [= <-]. }
  unfold bindM. destruct (f x w) as [[[]|e] w1] eqn:Hx; [|done].
  intros Hrest. destruct (Hf _ _ _ Hw Hx) as [Hs Hp].
  destruct (IH w1 w') as [Hs' Hp']; [by eapply on_capacitor_eq|done|].
  split; congruence.
Qed.

Lemma ensureTableExists_capacitor schema w w' :
  on_capacitor w →
  MigrationManager.ensureTableExists schema w = (Ok tt, w') →
  store w' = store w ∧ platform w' = platform w.
Proof.
  intros Hw. unfold MigrationManager.ensureTableExists, bindM.
  rewrite checkTableExists_run.
  case_bool_decide as Hpresent; cbn [negb].
  { by intros [= <-]. }
  destruct (MigrationManager.createTable schema (tick w)) as [[[]|e] w1] eqn:Hc;
    [|done].
  intros Hrec. exfalso.
  destruct (recordMigration_capacitor (name schema) "CREATE_TABLE" w1)
    as [w2 Hthrow]; [|congruence].
  unfold MigrationManager.createTable in Hc.
  rewrite execute_capacitor in Hc by apply Hw.
  eapply (engine_exec_on_capacitor _ (tick w)); [exact Hw| |exact Hc].
  intros d. cbn.
  destruct (tables (store w) !! name schema) as [t|] eqn:Ht; [done|].
  repeat (case_match; try done). intros [= <-]. cbn.
  apply lookup_insert_ne. intros Heq. rewrite Heq in Ht.
  destruct Hw as [_ (t & Ht' & _)]. congruence.
Qed.

Lemma addColumn_capacitor tableName columnName definition w :
  on_capacitor w → tableName ≠ "_migrations" →
  ∃ w', MigrationManager.addColumn tableName columnName definition w = (Ok tt, w')
        ∧ on_capacitor w'.
Proof.
  intros Hw Hne. unfold MigrationManager.addColumn, try_catch.
  rewrite execute_capacitor by apply Hw.
  destruct (engine_exec _ w) as [r w1] eqn:Hrun.
  assert (on_capacitor w1) as Hw1.
  { eapply engine_exec_on_capacitor; [exact Hw| |exact Hrun].
    intros d. cbn. destruct (tables (store w) !! tableName) as [t|]; [|done].
    repeat (case_match; try done). intros [= <-]. cbn.
    by apply lookup_insert_ne. }
  destruct r as [[]|e]; eauto.
Qed.

Lemma ensureColumnsExist_capacitor schema w w' :
  on_capacitor w → name schema ≠ "_migrations" →
  MigrationManager.ensureColumnsExist schema w = (Ok tt, w') →
  store w' = store w ∧ platform w' = platform w.
Proof.
  intros Hw Hne. unfold MigrationManager.ensureColumnsExist, bindM.
  unfold MigrationManager.getTableColumns, MigrationManager.query, engine_query.
  destruct (run (TableInfo (name schema)) (store w)) as [rows|e]; [|done].
  intros Hloop.
  apply for_each_unchanged in Hloop as [Hs Hp]; [by split| |done].
  intros [columnName definition] w0 w1 Hw0.
  case_match; [|by intros [= <-]].
  unfold bindM.
  destruct (addColumn_capacitor (name schema) columnName definition w0 Hw0 Hne)
    as (w2 & -> & Hw2).
  destruct (recordMigration_capacitor (name schema)
              ("ADD_COLUMN:" +:+ columnName) w2 Hw2) as [w3 ->]. done.
Qed.

Lemma ensureIndexesExist_capacitor schema w w' :
  on_capacitor w →
  MigrationManager.ensureIndexesExist schema w = (Ok tt, w') →
  store w' = store w ∧ platform w' = platform w.
Proof.
  intros Hw. unfold MigrationManager.ensureIndexesExist.
  destruct (indexes_ schema) as [idxs|]; [|by intros [= <-]].
  intros Hloop. apply for_each_unchanged in Hloop; [done| |done].
  intros index w0 w1 Hw0. unfold bindM. rewrite checkIndexExists_run.
  case_bool_decide as Hpresent; cbn [negb].
  { by intros [= <-]. }
  destruct (MigrationManager.createIndex (name schema) (idx_name index)
              (idx_columns index) (idx_unique index) (tick w0))
    as [[[]|e] w2] eqn:Hc; [|done].
  intros Hrec. exfalso.
  destruct (recordMigration_capacitor (name schema)
              ("CREATE_INDEX:" +:+ idx_name index) w2) as [w3 Hthrow];
    [|congruence].
  unfold MigrationManager.createIndex in Hc.
  rewrite execute_capacitor in Hc by apply Hw0.
  eapply (engine_exec_on_capacitor _ (tick w0)); [exact Hw0| |exact Hc].
  intros d. cbn.
  destruct (indexes (store w0) !! idx_name index); [by intros [= <-]|].
  destruct (tables (store w0) !! name schema); [|done].
  repeat (case_match; try done). by intros [= <-].
Qed.

(** X12.  On the capacitor branch the statement of [recordMigration]
    reaches the engine without its values, so with the tracking table in
    place it is always rejected.  A migration therefore returns only when
    it had nothing to do: the store it leaves is the store it found, and
    every table and index name of the registry was there before. *)
Theorem capacitor_migration_changes_nothing registry w w' :
  on_capacitor w →
  Forall (λ schema, name schema ≠ "_migrations") registry.*2 →
  MigrationManager.migrate registry w = (Ok tt, w') →
  store w' = store w ∧ Forall (in_place (store w)) registry.*2.
Proof.
  intros Hw Hnames Hrun.
  assert (store w' = store w) as Hs.
  { revert w w' Hw Hrun. unfold MigrationManager.migrate.
    induction Hnames as [|schema l Hne _ IH]; intros w w' Hw; cbn.
    { by intros [= <-]. }
    unfold bindM at 1.
    destruct ((MigrationManager.ensureTableExists schema >>
               MigrationManager.ensureColumnsExist schema >>
               MigrationManager.ensureIndexesExist schema) w)
      as [[[]|e] w3] eqn:Hstep; [|done].
    intros Hrest. revert Hstep. unfold bindM at 1.
    destruct (MigrationManager.ensureTableExists schema w) as [[[]|e] w1] eqn:Ht;
      [|done].
    unfold bindM.
    destruct (MigrationManager.ensureColumnsExist schema w1) as [[[]|e] w2] eqn:Hc;
      [|done].
    intros Hi.
    destruct (ensureTableExists_capacitor _ _ _ Hw Ht) as [Hs1 Hp1].
    assert (on_capacitor w1) as Hw1 by by eapply on_capacitor_eq.
    destruct (ensureColumnsExist_capacitor _ _ _ Hw1 Hne Hc) as [Hs2 Hp2].
    assert (on_capacitor w2) as Hw2 by by eapply on_capacitor_eq.
    destruct (ensureIndexesExist_capacitor _ _ _ Hw2 Hi) as [Hs3 Hp3].
    assert (on_capacitor w3) as Hw3 by by eapply on_capacitor_eq.
    rewrite (IH w3 w' Hw3 Hrest). congruence. }
  split; [done|]. rewrite <- Hs.
  revert Hrun. unfold MigrationManager.migrate.
  apply (for_each_ok (λ schema d, in_place d schema)).
  - apply keeps_schema_step.
  - intros schema d d'. apply in_place_extends.
  - apply schema_step_ok.
Qed.

(** A store that has everything, opened on a phone. *)
Lemma capacitor_migration_changes_nothing_witness :
  store (MigrationManager.migrate notes_registry notes_on_phone).2
  = store notes_on_phone
  ∧ Forall (in_place (store notes_on_phone)) notes_registry.*2.
Proof.
  apply (capacitor_migration_changes_nothing notes_registry notes_on_phone).
  - split; [reflexivity|]. eexists. split; vm_compute; reflexivity.
  - apply (bool_decide_unpack _). vm_compute. exact I.
  - apply run_ok_eta. vm_compute. reflexivity.
Defined.

(** ** The remote adapter and the sync manager *)

Lemma ticks_succ n w : ticks n (tick w) = ticks (S n) w.
Proof. unfold ticks. symmetry. apply Nat.iter_succ_r. Qed.

Lemma store_ticks n w : store (ticks n w) = store w.
Proof. induction n as [|n IH]; [done|]. exact IH. Qed.

Lemma remote_ok_ticks n w : remote_ok (ticks n w) = remote_ok w.
Proof. induction n as [|n IH]; [done|]. exact IH. Qed.




(** X14.  A record prepared for the remote service and prepared back
    again is the record it was, with [synced] set to [true] -- provided
    every number under a time-stamp name is read back from its text as
    the same number and no text is stored under such a name. *)
Theorem supabase_round_trip toISO parse record :
  map_Forall (λ key value, round_trips toISO parse key value = true) record →
  SupabaseAdapter.prepareFromSupabase parse
    (SupabaseAdapter_prepareForSupabase toISO record)
  = <["synced" := JBool true]> record.
Proof.
  intros Hok. apply map_eq. intros k.
  unfold SupabaseAdapter.prepareFromSupabase, SupabaseAdapter_prepareForSupabase.
  rewrite lookup_union, !map_lookup_imap.
  destruct (decide (k = "synced")) as [->|Hk].
  { rewrite lookup_delete_eq, lookup_insert_eq. cbn.
    by rewrite lookup_singleton_eq. }
  rewrite lookup_delete_ne, lookup_insert_ne, lookup_singleton_ne by done.
  destruct (record !! k) as [v|] eqn:Hv; [|done]. cbn.
  specialize (Hok k v Hv). unfold round_trips in Hok.
  destruct (SupabaseAdapter.isTimestampField k) eqn:Hts; cbn in Hok.
  - destruct v as [| |b|n|s]; cbn; rewrite ?Hts; try done.
    apply bool_decide_eq_true in Hok. by rewrite Hok.
  - destruct v as [| |b|n|s]; cbn; rewrite ?Hts; done.
Qed.

(** A record with one time stamp, and a clock text that reads back. *)
Lemma supabase_round_trip_witness :
  SupabaseAdapter.prepareFromSupabase demo_parse
    (SupabaseAdapter_prepareForSupabase (λ _, "2024-01-01T00:00:00.000Z")
       (<["synced" := JBool false]>
          {[ "id" := JStr "n1"; "created_at" := JNum 1704067200000 ]}))
  = <["synced" := JBool true]>
      (<["synced" := JBool false]>
         {[ "id" := JStr "n1"; "created_at" := JNum 1704067200000 ]}).
Proof.
  apply (supabase_round_trip (λ _, "2024-01-01T00:00:00.000Z") demo_parse).
  apply (bool_decide_unpack _). vm_compute. exact I.
Defined.








Lemma count_pending_run tableNames totalPending w :
  Forall (λ tableName,
            is_Some (tables (store w) !! tableName)
            ∧ has_col (table_of w tableName) "synced" = true
            ∧ has_col (table_of w tableName) "updated_at" = true) tableNames →
  count_pending tableNames totalPending w
  = (Ok (totalPending + Z.of_nat (sum_list (pending w <$> tableNames))),
     ticks (length tableNames) w).
Proof.
  intros Hall. revert totalPending w Hall.
  induction tableNames as [|tableName rest IH]; intros totalPending w Hall.
  { cbn. unfold ret. do 2 f_equal. lia. }
  apply Forall_cons in Hall as [([t Ht] & Hs & Hu) Hall].
  unfold table_of in Hs, Hu. rewrite Ht in Hs, Hu. cbn in Hs, Hu.
  cbn [count_pending]. unfold bindM.
  rewrite (findUnsynced_run w tableName t Ht Hs Hu), unsynced_filter.
  rewrite IH by exact Hall.
  assert (length (to_js <$> merge_sort (order_rel "updated_at" false)
                    (filter (λ r, cell r "synced" = SInt 0) (t_rows t)))
          = pending w tableName) as ->.
  { rewrite length_fmap, merge_sort_Permutation. unfold pending, rows_of.
    by rewrite Ht. }
  rewrite ticks_succ. change (pending (tick w)) with (pending w).
  rewrite fmap_cons. cbn [sum_list length]. do 2 f_equal. unfold id. lia.
Qed.

(** X16.  When every table of the registry exists with its [synced] and
    [updated_at] columns, [updatePendingCount] sets the pending count to
    the number of rows with [synced = 0] over all these tables,
    soft-deleted rows included; the other fields of the status and the
    store stay as they were. *)
Theorem pending_count_is_unsynced_rows status w :
  Forall (λ tableName,
            is_Some (tables (store w) !! tableName)
            ∧ has_col (table_of w tableName) "synced" = true
            ∧ has_col (table_of w tableName) "updated_at" = true)
         TABLE_NAMES →
  ∃ w', SyncManager_updatePendingCount status w
        = (Ok (Status (lastSync status)
                      (Z.of_nat (sum_list (pending w <$> TABLE_NAMES)))
                      (isSyncing status) (error status)), w')
        ∧ store w' = store w.
Proof.
  intros Hall. unfold SyncManager_updatePendingCount, bindM.
  rewrite (count_pending_run _ _ _ Hall).
  eexists. split; [reflexivity|]. apply store_ticks.
Qed.

(** One settings row waits for upload after the first start. *)
Lemma pending_count_is_unsynced_rows_witness :
  ∃ w', SyncManager_updatePendingCount SyncManager.initial with_settings
        = (Ok (Status (lastSync SyncManager.initial)
                      (Z.of_nat (sum_list (pending with_settings <$> TABLE_NAMES)))
                      (isSyncing SyncManager.initial)
                      (error SyncManager.initial)), w')
        ∧ store w' = store with_settings.
Proof.
  apply (pending_count_is_unsynced_rows SyncManager.initial with_settings).
  apply (bool_decide_unpack _). vm_compute. exact I.
Defined.

(** The remote copy of the note [n1]
    was last changed at 5, the local one at 12. *)
Lemma stale_remote_keeps_local_witness :
  SyncManager.applyRemote "notes" stale_note notes_world
  = (Ok tt, tick notes_world)
  ∧ store (tick notes_world) = store notes_world.
Proof.
  apply (stale_remote_keeps_local "notes" stale_note notes_world
           (to_js (default ∅ (head (t_rows notes_table))))
           (tick notes_world)).
  - vm_compute. reflexivity.
  - vm_compute. reflexivity.
Defined.

(** The remote copy of the note [n1] was
    last changed at 50, the local one at 12. *)
Lemma newer_remote_is_stamped_witness :
  ∃ t, tables (store notes_world) !! "notes" = Some t
       ∧ rows_of (SyncManager.applyRemote "notes" newer_note notes_world).2
                 "notes"
         = (λ r, if sql_eqb (cell r "id") (bind (prop newer_note "id"))
                 then stamp (SyncManager.update_argument newer_note)
                            (read_clock (tick notes_world)) r
                 else r) <$> t_rows t.
Proof.
  apply (newer_remote_is_stamped "notes" newer_note notes_world
           (to_js (default ∅ (head (t_rows notes_table))))
           (tick notes_world)).
  - vm_compute. reflexivity.
  - vm_compute. reflexivity.
  - apply run_ok_eta. vm_compute. reflexivity.
Defined.

(** ** The schema builder *)












(** ** The settings of the pomodoro service *)

Lemma findAll_everything tableName w :
  SQLiteAdapter.findAll tableName no_conditions w
  = engine_query (SelectFrom tableName [PEq "deleted" (SInt 0)]
                    (Some ("created_at", true)) None None) w.
Proof.
  unfold SQLiteAdapter.findAll, SQLiteAdapter.query. cbn.
  by rewrite map_to_list_empty.
Qed.

Lemma run_everything d tableName rows :
  run (SelectFrom tableName [PEq "deleted" (SInt 0)]
         (Some ("created_at", true)) None None) d = Ok rows →
  ∃ t, tables d !! tableName = Some t
       ∧ forallb (has_col t) ["created_at"; "deleted"] = true
       ∧ rows = merge_sort (order_rel "created_at" true)
                  (filter (λ r, matches [PEq "deleted" (SInt 0)] r) (t_rows t)).
Proof.
  cbn -[has_col matches forallb].
  destruct (tables d !! tableName) as [t|]; [|done].
  destruct (forallb (has_col t) ["created_at"; "deleted"]) eqn:Hcols; [|done].
  cbn -[matches]. intros [= <-]. eauto.
Qed.

Lemma merge_sort_nil_inv {A} (R : relation A) `{∀ x y, Decision (R x y)}
    (l : list A) :
  merge_sort R l = [] → l = [].
Proof.
  intros Hnil. apply Permutation_nil_r. by rewrite <- Hnil, merge_sort_Permutation.
Qed.

Lemma insert_inv tableName data w id w' :
  SQLiteAdapter.insert tableName data w = (Ok id, w') →
  ∃ t r, tables (store w) !! tableName = Some t
         ∧ store w'
           = set_table (store w) tableName
               (Table (t_columns t) (t_rows t ++ [r])).
Proof.
  unfold SQLiteAdapter.insert, bindM, uuidv4, Date_now, SQLiteAdapter.execute, ret.
  destruct (engine_exec _ (next_uuid w)) as [[[]|e] w1] eqn:Hexec; [|done].
  intros [= <- <-]. apply engine_exec_inv in Hexec as (d & Hexec & ->).
  cbn in Hexec. destruct (tables (store w) !! tableName) as [t|]; [|done].
  repeat (case_match; try done). injection Hexec as <-. eauto.
Qed.

Lemma filter_nil_mono {A} (P Q : A → Prop) `{∀ x, Decision (P x)}
    `{∀ x, Decision (Q x)} (l : list A) :
  (∀ x, Q x → P x) → filter P l = [] → filter Q l = [].
Proof.
  intros HQP. induction l as [|x l IH]; [done|]. rewrite !filter_cons.
  destruct (decide (P x)); [done|]. intros Hnil.
  rewrite decide_False by auto. auto.
Qed.

Lemma select_everything_after_insert d tableName t r :
  tables d !! tableName = Some t →
  forallb (has_col t) ["created_at"; "deleted"] = true →
  filter (λ r0, matches [PEq "deleted" (SInt 0)] r0) (t_rows t) = [] →
  matches [PEq "deleted" (SInt 0)] r = true →
  run (SelectFrom tableName [PEq "deleted" (SInt 0)]
         (Some ("created_at", true)) None None)
      (set_table d tableName (Table (t_columns t) (t_rows t ++ [r])))
  = Ok [r].
Proof.
  intros Ht Hcols Hnone Hr. cbn -[has_col matches filter forallb].
  rewrite lookup_insert_eq.
  change (forallb (has_col (Table (t_columns t) (t_rows t ++ [r])))
                  ["created_at"; "deleted"])
    with (forallb (has_col t) ["created_at"; "deleted"]).
  rewrite Hcols. cbn -[matches filter].
  rewrite filter_app, Hnone, filter_cons, decide_True by by rewrite Hr.
  cbn -[matches]. done.
Qed.

(** X22.  [getSettings] settles: once a call has returned the settings,
    the next call makes one query, returns the same object and writes
    nothing -- whether the first call found a row or had to create the
    default one.  So repeated calls create at most one row. *)
Theorem getSettings_settles w settings w1 :
  PomodoroService_getSettings w = (Ok settings, w1) →
  PomodoroService_getSettings w1 = (Ok settings, tick w1).
Proof.
  unfold PomodoroService_getSettings, bindM.
  rewrite !findAll_everything. unfold engine_query at 1.
  destruct (run _ (store w)) as [rows|e] eqn:Hq; [|done].
  destruct rows as [|r0 rest].
  - cbn [fmap list_fmap].
    destruct (SQLiteAdapter.insert "app_settings" default_settings (tick w))
      as [[id|e] w2] eqn:Hins; [|done].
    unfold SQLiteAdapter.findById, bindM, SQLiteAdapter.query.
    unfold engine_query at 1.
    destruct (run _ (store w2)) as [found|e] eqn:Hfind; [|done].
    destruct found as [|r found]; [done|]. cbn [fmap list_fmap head].
    intros [= <- <-].
    apply run_everything in Hq as (t & Ht & Hcols & Hnone).
    symmetry in Hnone. apply merge_sort_nil_inv in Hnone.
    apply insert_inv in Hins as (t' & r' & Ht' & Hst).
    change (store (tick w)) with (store w) in Ht', Hst.
    rewrite Ht in Ht'. injection Ht' as <-.
    assert (r' = r ∧ matches [PEq "deleted" (SInt 0)] r = true) as [-> Hr].
    { revert Hfind. rewrite Hst. cbn -[has_col matches filter].
      rewrite lookup_insert_eq. case_match; [done|].
      cbn -[matches filter]. intros [= Hfound]. revert Hfound.
      rewrite filter_app.
      rewrite (filter_nil_mono
                 (λ r0, matches [PEq "deleted" (SInt 0)] r0) _ (t_rows t));
        [|by intros x [_ ?]%andb_prop_elim|done].
      rewrite filter_cons. case_decide as Hm; [|done].
      intros [= <- _]. split; [done|].
      apply andb_prop_elim in Hm as [_ Hm]. by apply Is_true_true. }
    unfold engine_query. change (store (tick w2)) with (store w2).
    rewrite Hst, (select_everything_after_insert _ _ t r Ht Hcols Hnone Hr).
    done.
  - intros [= <- <-]. unfold engine_query.
    change (store (tick w)) with (store w). by rewrite Hq.
Qed.

(** The first call on a fresh install creates the settings. *)
Lemma getSettings_settles_witness :
  PomodoroService_getSettings (PomodoroService_getSettings installed).2
  = (Ok created_settings, tick (PomodoroService_getSettings installed).2).
Proof.
  apply (getSettings_settles installed).
  apply run_ok_eta. vm_compute. reflexivity.
Defined.


(** ** The daily notes of the pomodoro service *)



